(** * udb test core "shopping": the intrusive list of [list.h] and the cart of [item.c]

    A shallow embedding of [src/cores/shopping-release/list.h] and
    [src/cores/shopping-debug/item.c].  The C program manipulates a heap of
    [struct item] cells through raw pointers, so the embedding is a state and
    error monad over an explicit heap:
    - a pointer is [None] (NULL) or the address of a cell; an access through
      NULL or through the address of no live cell is a [Fault], the process
      dies there and the state at that moment is kept;
    - the two loops ([LIST_FOREACH] and the scan of [LIST_INSERT_TAIL]) take
      fuel, one unit per iteration, and give [Timeout] when it runs out; the
      theorems say how much fuel is enough;
    - [int] is 32 bits wide and [count += 1] wraps around;
    - [malloc] always succeeds and returns a cell with arbitrary contents. *)

From stdpp Require Import gmap strings list fin_maps pretty.

Local Open Scope Z_scope.

(** ** Memory model *)

Module Heap.

(** Addresses of [struct item] cells and of [struct shopping_head] cells.
    The two kinds of object live in separate typed heaps. *)
Abbreviation loc := positive (only parsing).

(** [struct item *] and [struct shopping_head *]: [None] is [NULL]. *)
Abbreviation ptr := (option positive) (only parsing).
Abbreviation hptr := (option positive) (only parsing).

(** [struct item **]: what [le_prev] holds, the address of the pointer that
    points to the element: either the [lh_first] field of a head or the
    [le_next] field of the previous element. *)
Inductive pptr : Type :=
  | PNull
  | AddrFirst (h : loc)
  | AddrNext (a : loc).

(** [struct item { long id; int count; LIST_ENTRY(item) next; }] *)
Record item : Type := Item {
  id : Z;
  count : Z;
  le_next : ptr;
  le_prev : pptr
}.

(** The program state: the static [shopping_cart] pointer, the heap of list
    heads ([lh_first] is the only field of a head), the heap of items and
    what was written to standard output. *)
Record state : Type := State {
  shopping_cart : hptr;
  heads : gmap positive (option positive);
  items : gmap positive item;
  stdout : list string
}.

Definition set_heads (f : gmap positive (option positive) → gmap positive (option positive))
    (s : state) : state :=
  State (shopping_cart s) (f (heads s)) (items s) (stdout s).

Definition set_items (f : gmap positive item → gmap positive item) (s : state) : state :=
  State (shopping_cart s) (heads s) (f (items s)) (stdout s).

Definition set_stdout (f : list string → list string) (s : state) : state :=
  State (shopping_cart s) (heads s) (items s) (f (stdout s)).

Definition set_id (v : Z) (it : item) : item := Item v (count it) (le_next it) (le_prev it).
Definition set_count (v : Z) (it : item) : item := Item (id it) v (le_next it) (le_prev it).
Definition set_next (v : ptr) (it : item) : item := Item (id it) (count it) v (le_prev it).
Definition set_prev (v : pptr) (it : item) : item := Item (id it) (count it) (le_next it) v.

(** The ways the process can die on a bad pointer. *)
Inductive fault : Type :=
  | NullDeref   (* access through NULL *)
  | WildDeref   (* access through a pointer to no live object *)
  | BadFree.    (* free of a pointer to no live object *)

(** A computation returns a value and a state, dies with a fault in some
    state, or is still looping when the fuel runs out. *)
Inductive outcome (A : Type) : Type :=
  | Ret (a : A) (s : state)
  | Fault (f : fault) (s : state)
  | Timeout.

Arguments Ret {A} a s.
Arguments Fault {A} f s.
Arguments Timeout {A}.

Definition M (A : Type) : Type := state → outcome A.

Definition ret {A} (a : A) : M A := λ s, Ret a s.

Definition bind {A B} (c : M A) (k : A → M B) : M B :=
  λ s, match c s with
       | Ret a s' => k a s'
       | Fault f s' => Fault f s'
       | Timeout => Timeout
       end.

Declare Scope cmd_scope.
Delimit Scope cmd_scope with cmd.
Bind Scope cmd_scope with M.

Notation "x <~ c1 ;; c2" := (bind c1 (λ x, c2))
  (at level 100, c1 at next level, right associativity) : cmd_scope.
Notation "c1 ;; c2" := (bind c1 (λ _, c2))
  (at level 100, right associativity) : cmd_scope.

Local Open Scope cmd_scope.

(** [(head)->lh_first] as an rvalue. *)
Definition load_first (head : hptr) : M ptr :=
  λ s, match head with
       | None => Fault NullDeref s
       | Some h =>
           match heads s !! h with
           | None => Fault WildDeref s
           | Some p => Ret p s
           end
       end.

(** [(head)->lh_first = v]. *)
Definition store_first (head : hptr) (v : ptr) : M unit :=
  λ s, match head with
       | None => Fault NullDeref s
       | Some h =>
           match heads s !! h with
           | None => Fault WildDeref s
           | Some _ => Ret tt (set_heads <[h := v]> s)
           end
       end.

(** [*(elm)] as an rvalue. *)
Definition load_item (elm : ptr) : M item :=
  λ s, match elm with
       | None => Fault NullDeref s
       | Some a =>
           match items s !! a with
           | None => Fault WildDeref s
           | Some it => Ret it s
           end
       end.

(** A write to one field of [*(elm)]. *)
Definition store_item (elm : ptr) (f : item → item) : M unit :=
  λ s, match elm with
       | None => Fault NullDeref s
       | Some a =>
           match items s !! a with
           | None => Fault WildDeref s
           | Some it => Ret tt (set_items <[a := f it]> s)
           end
       end.

Definition load_id (elm : ptr) : M Z := it <~ load_item elm;; ret (id it).
Definition load_count (elm : ptr) : M Z := it <~ load_item elm;; ret (count it).
Definition load_next (elm : ptr) : M ptr := it <~ load_item elm;; ret (le_next it).
Definition load_prev (elm : ptr) : M pptr := it <~ load_item elm;; ret (le_prev it).

Definition store_id (elm : ptr) (v : Z) : M unit := store_item elm (set_id v).
Definition store_count (elm : ptr) (v : Z) : M unit := store_item elm (set_count v).
Definition store_next (elm : ptr) (v : ptr) : M unit := store_item elm (set_next v).
Definition store_prev (elm : ptr) (v : pptr) : M unit := store_item elm (set_prev v).

(** [*pp = v] for a [struct item **]. *)
Definition store_through (pp : pptr) (v : ptr) : M unit :=
  match pp with
  | PNull => λ s, Fault NullDeref s
  | AddrFirst h => store_first (Some h) v
  | AddrNext a => store_next (Some a) v
  end.

(** [&(head)->lh_first] and [&(elm)->field.le_next].  The macros take these
    addresses only of objects they have already accessed, so the [None]
    case is never reached. *)
Definition addr_first (head : hptr) : pptr :=
  match head with Some h => AddrFirst h | None => PNull end.

Definition addr_next (elm : ptr) : pptr :=
  match elm with Some a => AddrNext a | None => PNull end.

(** [malloc(sizeof(struct item))]: a cell at an address that holds no live
    item, with indeterminate contents: [junk] stands for whatever the
    allocator leaves in the cell.  The allocator never runs out of memory. *)
Definition malloc (junk : state → item) : M ptr :=
  λ s, let a := fresh (dom (items s)) in
       Ret (Some a) (set_items <[a := junk s]> s).

(** [free(elm)]; [free(NULL)] does nothing. *)
Definition free (elm : ptr) : M unit :=
  λ s, match elm with
       | None => Ret tt s
       | Some a =>
           match items s !! a with
           | None => Fault BadFree s
           | Some _ => Ret tt (set_items (delete a) s)
           end
       end.

(** The value of the static [shopping_cart]. *)
Definition get_shopping_cart : M hptr := λ s, Ret (shopping_cart s) s.

(** A line written to standard output. *)
Definition print (line : string) : M unit :=
  λ s, Ret tt (set_stdout (λ o, o ++ [line]) s).

(** [int] arithmetic: 32 bits, two's complement.  ISO C leaves signed
    overflow undefined; the wrap-around is what the compiled increment
    does. *)
Definition INT_MAX : Z := 2147483647.
Definition INT_MIN : Z := -2147483648.

Definition wrap_int (z : Z) : Z := (z + 2 ^ 31) mod 2 ^ 32 - 2 ^ 31.

End Heap.

Export Heap.
Local Open Scope cmd_scope.

(** ** list.h *)

Module ListH.

(** [LIST_INSERT_AFTER(listelm, elm, field)] *)
Definition LIST_INSERT_AFTER (listelm elm : ptr) : M unit :=
  (* if (((elm)->field.le_next = (listelm)->field.le_next) != NULL) *)
  n <~ load_next listelm;;
  store_next elm n;;
  (match n with
   | Some _ =>
       (* (listelm)->field.le_next->field.le_prev = &(elm)->field.le_next; *)
       n' <~ load_next listelm;;
       store_prev n' (addr_next elm)
   | None => ret tt
   end);;
  (* (listelm)->field.le_next = (elm); *)
  store_next listelm elm;;
  (* (elm)->field.le_prev = &(listelm)->field.le_next; *)
  store_prev elm (addr_next listelm).

(** [LIST_INSERT_HEAD(head, elm, field)] *)
Definition LIST_INSERT_HEAD (head : hptr) (elm : ptr) : M unit :=
  (* if (((elm)->field.le_next = (head)->lh_first) != NULL) *)
  first <~ load_first head;;
  store_next elm first;;
  (match first with
   | Some _ =>
       (* (head)->lh_first->field.le_prev = &(elm)->field.le_next; *)
       first' <~ load_first head;;
       store_prev first' (addr_next elm)
   | None => ret tt
   end);;
  (* (head)->lh_first = (elm); *)
  store_first head elm;;
  (* (elm)->field.le_prev = &(head)->lh_first; *)
  store_prev elm (addr_first head).

(** [while (LIST_NEXT(curelm, field)) curelm = LIST_NEXT(curelm, field);]
    and the value of [curelm] after the loop. *)
Fixpoint tail_scan (fuel : nat) (curelm : ptr) : M ptr :=
  n <~ load_next curelm;;
  match n with
  | None => ret curelm
  | Some _ =>
      match fuel with
      | O => λ _, Timeout
      | S fuel' =>
          n' <~ load_next curelm;;
          tail_scan fuel' n'
      end
  end.

(** [LIST_INSERT_TAIL(head, elm, type, field)] *)
Definition LIST_INSERT_TAIL (fuel : nat) (head : hptr) (elm : ptr) : M unit :=
  (* struct type *curelm = LIST_FIRST(head); *)
  curelm <~ load_first head;;
  match curelm with
  | None => LIST_INSERT_HEAD head elm
  | Some _ =>
      last <~ tail_scan fuel curelm;;
      LIST_INSERT_AFTER last elm
  end.

(** [LIST_REMOVE(elm, field)] *)
Definition LIST_REMOVE (elm : ptr) : M unit :=
  (* if ((elm)->field.le_next != NULL) *)
  n <~ load_next elm;;
  (match n with
   | Some _ =>
       (* (elm)->field.le_next->field.le_prev = (elm)->field.le_prev; *)
       n' <~ load_next elm;;
       p <~ load_prev elm;;
       store_prev n' p
   | None => ret tt
   end);;
  (* if ((elm)->field.le_prev != NULL) *)
  p <~ load_prev elm;;
  match p with
  | PNull => ret tt
  | _ =>
      (* *(elm)->field.le_prev = (elm)->field.le_next; *)
      p' <~ load_prev elm;;
      n' <~ load_next elm;;
      store_through p' n'
  end.

(** [for (...; (var); (var) = ((var)->field.le_next)) body], from the
    current value of [var].  The body works on the locals [A] of the
    enclosing function and either falls through to the next iteration
    ([inl]) or returns from the function ([inr]).  When the loop runs to its
    end the result carries the final value of [var], which is [NULL]. *)
Fixpoint foreach_from {A R} (fuel : nat) (var : ptr)
    (body : ptr → A → M (A + R)) (acc : A) : M (ptr * A + R) :=
  match var with
  | None => ret (inl (var, acc))
  | Some _ =>
      match fuel with
      | O => λ _, Timeout
      | S fuel' =>
          r <~ body var acc;;
          match r with
          | inr v => ret (inr v)
          | inl acc' =>
              n <~ load_next var;;
              foreach_from fuel' n body acc'
          end
      end
  end.

(** [LIST_FOREACH(var, head, field) body] *)
Definition LIST_FOREACH {A R} (fuel : nat) (head : hptr)
    (body : ptr → A → M (A + R)) (acc : A) : M (ptr * A + R) :=
  (* (var) = ((head)->lh_first) *)
  first <~ load_first head;;
  foreach_from fuel first body acc.

(** Iterating a list and recording each value of the loop variable. *)
Definition list_elements (fuel : nat) (head : hptr) : M (list positive) :=
  r <~ LIST_FOREACH (R := Empty_set) fuel head
         (λ var acc, ret (inl (acc ++ from_option (λ a, [a]) [] var))) [];;
  match r with
  | inl (_, acc) => ret acc
  | inr v => match v with end
  end.

(** [LIST_INSERT_TAIL] of each element of [es], in order. *)
Fixpoint insert_tail_all (fuel : nat) (head : hptr) (es : list positive) : M unit :=
  match es with
  | [] => ret tt
  | e :: es' => LIST_INSERT_TAIL fuel head (Some e);; insert_tail_all fuel head es'
  end.

End ListH.

Export ListH.

(** ** item.c *)

Module Cart.

Definition newline : string := String (Ascii.ascii_of_nat 10) EmptyString.

(** The text of [printf("failed to find %ld in shopping cart\n", id)]. *)
Definition failed_msg (id : Z) : string :=
  "failed to find " +:+ pretty id +:+ " in shopping cart" +:+ newline.

Definition print_failed (id : Z) : M unit := print (failed_msg id).

Section WithUninit.

(** What freshly allocated memory happens to contain. *)
Variable junk : state → item.

(** [void add_to_cart(long id)] *)
Definition add_to_cart (fuel : nat) (id : Z) : M unit :=
  head <~ get_shopping_cart;;
  r <~ LIST_FOREACH fuel head
         (λ item (_ : unit),
            (* if (item->id == id) *)
            i <~ load_id item;;
            if decide (i = id) then
              (* item->count += 1; return; *)
              c <~ load_count item;;
              store_count item (wrap_int (c + 1));;
              ret (inr tt)
            else ret (inl tt)) tt;;
  match r with
  | inr _ => ret tt
  | inl _ =>
      (* item = malloc(sizeof(struct item)); *)
      item <~ malloc junk;;
      (* item->id = id; item->count = 1; *)
      store_id item id;;
      store_count item 1;;
      (* LIST_INSERT_TAIL(shopping_cart, item, item, next); *)
      head' <~ get_shopping_cart;;
      LIST_INSERT_TAIL fuel head' item
  end.

End WithUninit.

(** [int remove_from_cart(long id)] *)
Definition remove_from_cart (fuel : nat) (id : Z) : M Z :=
  head <~ get_shopping_cart;;
  r <~ LIST_FOREACH fuel head
         (λ item (_ : unit),
            (* if (item->id == id) *)
            i <~ load_id item;;
            if decide (i = id) then
              (* count = item->count; LIST_REMOVE(item, next); free(item);
                 return count; *)
              count <~ load_count item;;
              LIST_REMOVE item;;
              free item;;
              ret (inr count)
            else ret (inl tt)) tt;;
  match r with
  | inr count => ret count
  | inl (item, _) =>
      (* the loop ran to its end: item is NULL here *)
      print_failed id;;
      (* this will core *)
      LIST_REMOVE item;;
      free item;;
      ret 0
  end.

(** [int get_cost(long id)] *)
Definition get_cost (id : Z) : Z :=
  if decide (id = 1) then 10
  else if decide (id = 2) then 12
  else 0.

(** [const char *get_name(long id)] *)
Definition get_name (id : Z) : string :=
  if decide (id = 1) then "apple"
  else if decide (id = 2) then "banana"
  else "bad id".

(** Iterating the cart and recording the [id] and [count] of each item. *)
Definition cart_entries (fuel : nat) : M (list (Z * Z)) :=
  head <~ get_shopping_cart;;
  r <~ LIST_FOREACH (R := Empty_set) fuel head
         (λ item acc, it <~ load_item item;; ret (inl (acc ++ [(id it, count it)]))) [];;
  match r with
  | inl (_, acc) => ret acc
  | inr v => match v with end
  end.

(** [c] run [n] times in a row. *)
Definition repeat_cmd (n : N) (c : M unit) : M unit :=
  N.iter n (λ rest, c;; rest) (ret tt).

(** [add_to_cart] of each id of [ids], in order. *)
Fixpoint add_all (junk : state → item) (fuel : nat) (ids : list Z) : M unit :=
  match ids with
  | [] => ret tt
  | x :: ids' => add_to_cart junk fuel x;; add_all junk fuel ids'
  end.

(** The state the process starts in: statics are zero-initialised and
    nothing is allocated. *)
Definition initial_state : state := State None ∅ ∅ [].

End Cart.

Export Cart.

(** ** Representation invariants *)

Module Inv.

(** The link fields of the item at [a], if it is live. *)
Definition links (m : gmap positive item) (a : loc) : option (ptr * pptr) :=
  (λ it, (le_next it, le_prev it)) <$> m !! a.

(** The [id] and [count] of the item at [a], if it is live. *)
Definition entry_at (s : state) (a : loc) : option (Z * Z) :=
  (λ it, (id it, count it)) <$> items s !! a.

(** [lseg m back p l q]: following [le_next] from [p] visits exactly the
    cells [l] and arrives at [q]; [back] is the address of the pointer
    variable that holds [p], and every cell's [le_prev] is the address of
    the pointer that points to it. *)
Fixpoint lseg (m : gmap positive item) (back : pptr) (p : ptr)
    (l : list positive) (q : ptr) : Prop :=
  match l with
  | [] => p = q
  | a :: l' =>
      p = Some a ∧
      ∃ n, links m a = Some (n, back) ∧ lseg m (AddrNext a) n l' q
  end.

Arguments lseg : simpl never.

(** The address of the pointer that ends a segment. *)
Definition last_back (back : pptr) (l : list positive) : pptr :=
  from_option AddrNext back (last l).

(** The list invariant for the head at [h]: the elements of the list are
    exactly [l], in this order, each reached once from the head, with
    correct back-links. *)
Definition is_list (s : state) (h : loc) (l : list positive) : Prop :=
  ∃ first,
    heads s !! h = Some first ∧
    lseg (items s) (AddrFirst h) first l None ∧
    NoDup l.

(** A step that touches link fields only. *)
Definition data_eq (s s' : state) : Prop :=
  shopping_cart s' = shopping_cart s ∧
  stdout s' = stdout s ∧
  ∀ a, entry_at s' a = entry_at s a.

(** A command keeps the relation [R] between the states before and after. *)
Definition preserves {A} (R : state → state → Prop) (c : M A) : Prop :=
  ∀ s a s', c s = Ret a s' → R s s'.

(** The cart holds the items at [l], whose ids and counts are [c]. *)
Definition is_cart (s : state) (l : list positive) (c : list (Z * Z)) : Prop :=
  ∃ h,
    shopping_cart s = Some h ∧
    is_list s h l ∧
    Forall2 (λ a e, entry_at s a = Some e) l c.

(** The static [shopping_cart] is not assigned. *)
Definition cart_fixed (s s' : state) : Prop := shopping_cart s' = shopping_cart s.

(** The ids seen so far, in the order of their first appearance. *)
Definition note_id (seen : list Z) (x : Z) : list Z :=
  if decide (x ∈ seen) then seen else seen ++ [x].

Definition first_added (seen ids : list Z) : list Z := foldl note_id seen ids.

End Inv.

Export Inv.

(** ** Sample states *)

Module Samples.

(** Some contents for uninitialised memory. *)
Definition junk0 : item := Item (-7) (-9) (Some 99%positive) (AddrNext 98).

Definition garbage : state → item := λ _, junk0.

(** A cart with a head at address 1 and no items. *)
Definition empty_cart : state := State (Some 1%positive) {[ 1%positive := None ]} ∅ [].

(** A cart whose only item, for id 7, has the largest count an [int] holds. *)
Definition full_cart : state :=
  State (Some 1%positive) {[ 1%positive := Some 1%positive ]}
    {[ 1%positive := Item 7 INT_MAX None (AddrFirst 1) ]} [].

(** A cart whose only item, for id 7, has count 2. *)
Definition small_cart : state :=
  State (Some 1%positive) {[ 1%positive := Some 1%positive ]}
    {[ 1%positive := Item 7 2 None (AddrFirst 1) ]} [].

(** An empty head at address 1 and three cells that are on no list. *)
Definition three_cells : state :=
  State None {[ 1%positive := None ]}
    (<[ 5%positive := junk0 ]> (<[ 2%positive := junk0 ]> {[ 9%positive := junk0 ]})) [].

End Samples.

Export Samples.

(** ** The cart as an association list *)

Module Model.

(** What [add_to_cart(x)] does to the ids and counts, in list order. *)
Fixpoint add_entry (x : Z) (c : list (Z * Z)) : list (Z * Z) :=
  match c with
  | [] => [(x, 1)]
  | (y, k) :: c' =>
      if decide (y = x) then (y, wrap_int (k + 1)) :: c'
      else (y, k) :: add_entry x c'
  end.

(** What [remove_from_cart(x)] returns and leaves, if it finds [x]. *)
Fixpoint remove_entry (x : Z) (c : list (Z * Z)) : option (Z * list (Z * Z)) :=
  match c with
  | [] => None
  | (y, k) :: c' =>
      if decide (y = x) then Some (k, c')
      else (λ r, (r.1, (y, k) :: r.2)) <$> remove_entry x c'
  end.

(** A call of one of the two cart functions, as a client makes it; the
    value [remove_from_cart] returns is dropped. *)
Inductive call : Type :=
  | Add (x : Z)
  | Remove (x : Z).

Definition run_call (junk : state → item) (fuel : nat) (k : call) : M unit :=
  match k with
  | Add x => add_to_cart junk fuel x
  | Remove x => _ <~ remove_from_cart fuel x;; ret tt
  end.

Fixpoint run_calls (junk : state → item) (fuel : nat) (ks : list call) : M unit :=
  match ks with
  | [] => ret tt
  | k :: ks' => run_call junk fuel k;; run_calls junk fuel ks'
  end.

(** The same calls on the list of ids and counts; [None] when an id to
    remove is not there. *)
Definition model_call (c : list (Z * Z)) (k : call) : option (list (Z * Z)) :=
  match k with
  | Add x => Some (add_entry x c)
  | Remove x => snd <$> remove_entry x c
  end.

Fixpoint model_calls (c : list (Z * Z)) (ks : list call) : option (list (Z * Z)) :=
  match ks with
  | [] => Some c
  | k :: ks' =>
      match model_call c k with
      | Some c' => model_calls c' ks'
      | None => None
      end
  end.





(** The count held for id [x], 0 when the id is absent. *)
Fixpoint cart_count (x : Z) (c : list (Z * Z)) : Z :=
  match c with
  | [] => 0
  | (y, k) :: c' => if decide (y = x) then k else cart_count x c'
  end.

(** How often [x] occurs in [ids]. *)
Definition occurrences (x : Z) (ids : list Z) : Z :=
  Z.of_nat (length (filter (λ y, y = x) ids)).

(** Nothing is printed and no cell is freed. *)
Definition keeps_cells (s s' : state) : Prop :=
  stdout s' = stdout s ∧ ∀ a, is_Some (items s !! a) → is_Some (items s' !! a).

(** Nothing is printed and no cell is allocated. *)
Definition makes_no_cells (s s' : state) : Prop :=
  stdout s' = stdout s ∧ ∀ a, is_Some (items s' !! a) → is_Some (items s !! a).

End Model.

Export Model.

(** ** Facts about the heap and the monad *)

Lemma links_insert_eq (m : gmap positive item) a it :
  links (<[a := it]> m) a = Some (le_next it, le_prev it).
Proof. unfold links. by rewrite lookup_insert_eq. Qed.

Lemma links_insert_ne (m : gmap positive item) a b it :
  a ≠ b → links (<[a := it]> m) b = links m b.
Proof. intros. unfold links. by rewrite lookup_insert_ne. Qed.

Lemma links_Some (m : gmap positive item) a n p :
  links m a = Some (n, p) ↔ ∃ it, m !! a = Some it ∧ le_next it = n ∧ le_prev it = p.
Proof.
  unfold links. split.
  - destruct (m !! a) as [it|]; simpl; [|done].
    intros [= <- <-]. eauto.
  - intros (it & -> & <- & <-). done.
Qed.

Lemma lseg_nil (m : gmap positive item) back p q : lseg m back p [] q ↔ p = q.
Proof. done. Qed.

Lemma lseg_cons (m : gmap positive item) back p a l q :
  lseg m back p (a :: l) q ↔
  p = Some a ∧ ∃ n, links m a = Some (n, back) ∧ lseg m (AddrNext a) n l q.
Proof. done. Qed.

Lemma lseg_ext (m m' : gmap positive item) l :
  ∀ back p q,
    (∀ a, a ∈ l → links m' a = links m a) →
    lseg m back p l q → lseg m' back p l q.
Proof.
  induction l as [|a l IH]; intros back p q Hsame; [done|]. rewrite !lseg_cons.
  intros (-> & n & Ha & Hl). split; [done|].
  exists n. split.
  - rewrite Hsame; [done|]. left.
  - apply IH; [|done]. intros b Hb. apply Hsame. by right.
Qed.

Lemma last_back_cons back a l : last_back back (a :: l) = last_back (AddrNext a) l.
Proof. unfold last_back. rewrite last_cons. by destruct (last l). Qed.

Lemma last_back_snoc back l a : last_back back (l ++ [a]) = AddrNext a.
Proof. unfold last_back. by rewrite last_snoc. Qed.

Lemma lseg_app (m : gmap positive item) l1 l2 :
  ∀ back p q,
    lseg m back p (l1 ++ l2) q ↔
    ∃ mid, lseg m back p l1 mid ∧ lseg m (last_back back l1) mid l2 q.
Proof.
  induction l1 as [|a l1 IH]; intros back p q.
  - cbn [app]. split; [intros H; by exists p|]. by intros (mid & ->%lseg_nil & H).
  - rewrite last_back_cons. cbn [app]. setoid_rewrite lseg_cons. split.
    + intros (-> & n & Ha & Hl). apply IH in Hl as (mid & H1 & H2).
      exists mid. eauto.
    + intros (mid & (-> & n & Ha & H1) & H2). split; [done|].
      exists n. split; [done|]. apply IH. eauto.
Qed.

Lemma lseg_live (m : gmap positive item) l :
  ∀ back p q a, lseg m back p l q → a ∈ l → is_Some (m !! a).
Proof.
  induction l as [|b l IH]; intros back p q a; [by intros _ ?%elem_of_nil|]. rewrite lseg_cons.
  intros (-> & n & Hb & Hl) [->|Ha]%elem_of_cons.
  - apply links_Some in Hb as (it & -> & _). eauto.
  - eauto.
Qed.

(** Symbolic execution of a command on a heap whose cells are known. *)
Ltac exec_step :=
  match goal with
  | H : ?m !! ?a = _ |- context [?m !! ?a] => rewrite H
  | H : le_next ?it = _ |- context [le_next ?it] => rewrite H
  | H : le_prev ?it = _ |- context [le_prev ?it] => rewrite H
  | |- context [<[?a:=_]> _ !! ?a] => rewrite lookup_insert_eq
  | |- context [<[?a:=_]> _ !! ?b] => rewrite (lookup_insert_ne _ a b) by congruence
  end.

Ltac exec := repeat (simpl; exec_step); simpl.

Ltac unfold_cmds :=
  unfold load_next, load_prev, load_id, load_count,
    store_next, store_prev, store_id, store_count, store_through, store_item, load_item,
    load_first, store_first, get_shopping_cart, free, addr_next, addr_first, bind, ret.

Lemma lseg_cons_inv m back p a l q :
  lseg m back p (a :: l) q →
  p = Some a ∧ ∃ it, m !! a = Some it ∧ le_prev it = back ∧ lseg m (AddrNext a) (le_next it) l q.
Proof.
  rewrite lseg_cons. intros (-> & n & (it & ? & <- & <-)%links_Some & ?). eauto 10.
Qed.

Lemma lseg_cons_intro m back p a it n l q :
  p = Some a →
  m !! a = Some it → le_prev it = back → le_next it = n →
  lseg m (AddrNext a) n l q →
  lseg m back p (a :: l) q.
Proof.
  intros -> Ha Hp Hn Hl. split; [done|]. exists n. split; [|done].
  apply links_Some. eauto.
Qed.

Lemma lseg_frame (m m' : gmap positive item) l back p q :
  (∀ a, a ∈ l → m' !! a = m !! a) → lseg m back p l q → lseg m' back p l q.
Proof.
  intros H. apply lseg_ext. intros a Ha. unfold links. by rewrite H.
Qed.

Lemma LIST_INSERT_HEAD_run s h l e :
  is_list s h l → e ∉ l → is_Some (items s !! e) →
  ∃ s', LIST_INSERT_HEAD (Some h) (Some e) s = Ret tt s' ∧
        is_list s' h (e :: l).
Proof.
  intros (first & Hh & Hl & Hnd) He [ite Hite].
  unfold LIST_INSERT_HEAD. unfold_cmds.
  destruct l as [|y l].
  - apply lseg_nil in Hl. subst first. exec. eexists; split; [reflexivity|].
    eexists. simpl. rewrite lookup_insert_eq. split; [done|]. split; [|by apply NoDup_singleton].
    eapply lseg_cons_intro; [done|by exec|done..].
  - apply lseg_cons_inv in Hl as (-> & ity & Hity & Hprev & Hl).
    apply not_elem_of_cons in He as [Hey He].
    apply NoDup_cons in Hnd as Hnd'. destruct Hnd' as [Hy Hnd'].
    exec. eexists; split; [reflexivity|].
    eexists. simpl. rewrite lookup_insert_eq. split; [done|]. split; [|by apply NoDup_cons; rewrite not_elem_of_cons].
    eapply lseg_cons_intro; [done|by exec|done..|].
    eapply lseg_cons_intro; [done|by exec|done..|].
    eapply lseg_frame; [|done]. intros a Ha.
    rewrite !lookup_insert_ne; [done|congruence..].
Qed.

Lemma LIST_INSERT_AFTER_run s h l1 x l2 e :
  is_list s h (l1 ++ x :: l2) → e ∉ l1 ++ x :: l2 → is_Some (items s !! e) →
  ∃ s', LIST_INSERT_AFTER (Some x) (Some e) s = Ret tt s' ∧
        is_list s' h (l1 ++ x :: e :: l2).
Proof.
  intros (first & Hh & Hl & Hnd) He [ite Hite].
  apply lseg_app in Hl as (mid & Hl1 & Hl2).
  apply lseg_cons_inv in Hl2 as (-> & itx & Hitx & Hprev & Hl2).
  apply not_elem_of_app in He as [He1 [Hex He2]%not_elem_of_cons].
  apply NoDup_app in Hnd as (Hnd1 & Hdisj & [Hx Hnd2]%NoDup_cons).
  assert (Hx1 : x ∉ l1) by (intros ?; eapply Hdisj; [done|left]).
  unfold LIST_INSERT_AFTER. unfold_cmds.
  destruct l2 as [|y l2].
  - apply lseg_nil in Hl2. exec. eexists; split; [reflexivity|].
    exists first. simpl. split; [done|]. split.
    + apply lseg_app. exists (Some x). split.
      * eapply lseg_frame; [|done]. intros a Ha.
        rewrite !lookup_insert_ne; [done|congruence..].
      * eapply lseg_cons_intro; [done|by exec|done..|].
        eapply lseg_cons_intro; [done|by exec|done..].
    + apply NoDup_app. split; [done|]. split.
      * intros a Ha [->|[->|?%elem_of_nil]%elem_of_cons]%elem_of_cons; done.
      * apply NoDup_cons. split; [|apply NoDup_singleton].
        intros Hin%list_elem_of_singleton. congruence.
  - apply lseg_cons_inv in Hl2 as (Hn & ity & Hity & Hprevy & Hl2).
    apply not_elem_of_cons in He2 as [Hey He2].
    apply not_elem_of_cons in Hx as [Hxy Hx].
    apply NoDup_cons in Hnd2 as [Hy Hnd2].
    assert (Hy1 : y ∉ l1) by (intros ?; eapply Hdisj; [done|right; left]).
    exec. eexists; split; [reflexivity|].
    exists first. simpl. split; [done|]. split.
    + apply lseg_app. exists (Some x). split.
      * eapply lseg_frame; [|done]. intros a Ha.
        rewrite !lookup_insert_ne; [done|congruence..].
      * eapply lseg_cons_intro; [done|by exec|done..|].
        eapply lseg_cons_intro; [done|by exec|done..|].
        eapply lseg_cons_intro; [done|by exec|done..|].
        eapply lseg_frame; [|done]. intros a Ha.
        rewrite !lookup_insert_ne; [done|congruence..].
    + apply NoDup_app. split; [done|]. split.
      * intros a Ha Ha'. apply (Hdisj a Ha).
        apply elem_of_cons in Ha' as [->|[->|Ha']%elem_of_cons]; [left|done|by right].
      * rewrite !NoDup_cons, !not_elem_of_cons. repeat split; done || congruence.
Qed.

Lemma tail_scan_spec s l :
  ∀ fuel back a,
    lseg (items s) back (Some a) (a :: l) None → (length l ≤ fuel)%nat →
    tail_scan fuel (Some a) s = Ret (last (a :: l)) s.
Proof.
  induction l as [|b l IH]; intros fuel back a Hl Hfuel;
    apply lseg_cons_inv in Hl as (_ & ita & Hita & _ & Hl).
  - apply lseg_nil in Hl. destruct fuel; simpl; unfold_cmds; by exec.
  - pose proof Hl as (Hn & _)%lseg_cons_inv.
    destruct fuel as [|fuel]; [simpl in Hfuel; lia|].
    simpl. unfold_cmds. exec.
    change (tail_scan fuel (Some b) s = Ret (last (a :: b :: l)) s).
    rewrite Hn in Hl. erewrite IH; [|done|simpl in Hfuel; lia].
    by rewrite last_cons_cons.
Qed.


Lemma LIST_INSERT_TAIL_run fuel s h l e :
  is_list s h l → e ∉ l → is_Some (items s !! e) → (length l ≤ fuel)%nat →
  ∃ s', LIST_INSERT_TAIL fuel (Some h) (Some e) s = Ret tt s' ∧
        is_list s' h (l ++ [e]).
Proof.
  intros Hlist He Hlive Hfuel.
  destruct l as [|a l _] using rev_ind.
  - destruct (LIST_INSERT_HEAD_run s h [] e) as (s' & Hrun & Hs'); [done..|].
    exists s'. split; [|done].
    destruct Hlist as (first & Hh & Hl & _). apply lseg_nil in Hl. subst.
    unfold LIST_INSERT_TAIL, bind at 1, load_first. by rewrite Hh.
  - destruct (LIST_INSERT_AFTER_run s h l a [] e) as (s' & Hrun & Hs'); [done..|].
    exists s'. split; [|by rewrite <-app_assoc].
    destruct Hlist as (first & Hh & Hl & _).
    unfold LIST_INSERT_TAIL, bind at 1, load_first. rewrite Hh.
    destruct (l ++ [a]) as [|b l'] eqn:Heq; [by destruct l|].
    pose proof Hl as (-> & _)%lseg_cons_inv.
    unfold bind. erewrite tail_scan_spec; [|done|].
    + by rewrite <-Heq, last_snoc.
    + simpl in Hfuel. lia.
Qed.

Lemma LIST_REMOVE_run s h l1 a l2 :
  is_list s h (l1 ++ a :: l2) →
  ∃ s', LIST_REMOVE (Some a) s = Ret tt s' ∧ is_list s' h (l1 ++ l2).
Proof.
  intros (first & Hh & Hl & Hnd).
  apply lseg_app in Hl as (mid & Hl1 & Hl2).
  apply lseg_cons_inv in Hl2 as (-> & ita & Hita & Hprev & Hl2).
  apply NoDup_app in Hnd as (Hnd1 & Hdisj & [Ha Hnd2]%NoDup_cons).
  assert (Ha1 : a ∉ l1) by (intros ?; eapply Hdisj; [done|left]).
  unfold LIST_REMOVE. unfold_cmds.
  destruct l1 as [|z l1 _] using rev_ind; destruct l2 as [|y l2].
  - apply lseg_nil in Hl1, Hl2. exec. eexists; split; [reflexivity|].
    eexists. simpl. rewrite lookup_insert_eq. by repeat split.
  - apply lseg_nil in Hl1.
    apply lseg_cons_inv in Hl2 as (Hn & ity & Hity & Hprevy & Hl2).
    apply not_elem_of_cons in Ha as [Hay Ha].
    apply NoDup_cons in Hnd2 as Hnd2'. destruct Hnd2' as [Hy Hnd2'].
    unfold last_back in Hprev. simpl in Hprev.
    exec. eexists; split; [reflexivity|].
    eexists. simpl. rewrite lookup_insert_eq. split; [done|]. split; [|done].
    eapply lseg_cons_intro; [done|by exec|done..|].
    eapply lseg_frame; [|done]. intros b Hb.
    rewrite !lookup_insert_ne; [done|congruence..].
  - apply lseg_nil in Hl2. rewrite last_back_snoc in Hprev.
    apply lseg_app in Hl1 as (mid & Hl1 & (-> & itz & Hitz & Hprevz & Hnz)%lseg_cons_inv).
    apply lseg_nil in Hnz.
    apply not_elem_of_app in Ha1 as [Ha1 Haz%not_elem_of_cons].
    apply NoDup_app in Hnd1 as (Hnd1 & Hz & _).
    exec. eexists; split; [reflexivity|].
    eexists. simpl. split; [done|]. rewrite app_nil_r. split.
    + apply lseg_app. exists (Some z). split.
      * eapply lseg_frame; [|done]. intros b Hb.
        rewrite !lookup_insert_ne; [done|]. intros ->. eapply Hz; [done|left].
      * eapply lseg_cons_intro; [done|by exec|done..].
    + apply NoDup_app. split; [done|]. split; [done|apply NoDup_singleton].
  - rewrite last_back_snoc in Hprev.
    apply lseg_app in Hl1 as (mid & Hl1 & (-> & itz & Hitz & Hprevz & Hnz)%lseg_cons_inv).
    apply lseg_nil in Hnz.
    apply lseg_cons_inv in Hl2 as (Hn & ity & Hity & Hprevy & Hl2).
    apply not_elem_of_app in Ha1 as [Ha1 [Haz _]%not_elem_of_cons].
    apply not_elem_of_cons in Ha as [Hay Ha].
    apply NoDup_cons in Hnd2 as Hnd2'. destruct Hnd2' as [Hy Hnd2'].
    apply NoDup_app in Hnd1 as Hnd1'. destruct Hnd1' as (Hnd1' & Hz & _).
    assert (Hzy : z ≠ y).
    { intros ->. eapply Hdisj; [apply elem_of_app; right; left|right; left]. }
    exec. eexists; split; [reflexivity|].
    eexists. simpl. split; [done|]. split.
    + rewrite <-app_assoc. apply lseg_app. exists (Some z). split.
      * eapply lseg_frame; [|done]. intros b Hb.
        rewrite !lookup_insert_ne; [done|..].
        -- intros ->. eapply Hdisj; [apply elem_of_app; left; done|right; left].
        -- intros ->. eapply Hz; [done|left].
      * eapply lseg_cons_intro; [done|by exec|done..|].
        eapply lseg_cons_intro; [done|by exec|done..|].
        eapply lseg_frame; [|done]. intros b Hb.
        rewrite !lookup_insert_ne; [done|..].
        -- congruence.
        -- intros ->. eapply Hdisj; [apply elem_of_app; right; left|by do 2 right].
    + apply NoDup_app. split; [done|]. split; [|done].
      intros b Hb Hb'. eapply Hdisj; [done|by right].
Qed.

(** ** Commands that keep a relation between the state before and after *)

Create HintDb preserves.

Section Preserves.

Context (R : state → state → Prop) `{!Reflexive R, !Transitive R}.

Lemma preserves_ret {A} (a : A) : preserves R (ret a).
Proof. intros s a' s' [= _ <-]. reflexivity. Qed.

Lemma preserves_bind {A B} (c : M A) (k : A → M B) :
  preserves R c → (∀ a, preserves R (k a)) → preserves R (bind c k).
Proof.
  intros Hc Hk s b s'. unfold bind.
  destruct (c s) as [a s1| |] eqn:Hcs; [|done..].
  intros Hks. transitivity s1; [by eapply Hc|by eapply Hk].
Qed.

Lemma preserves_load_first head : preserves R (load_first head).
Proof.
  intros s a s'. unfold load_first.
  destruct head as [h|]; [|done]. destruct (heads s !! h); [|done].
  intros [= _ <-]. reflexivity.
Qed.

Lemma preserves_load_item elm : preserves R (load_item elm).
Proof.
  intros s a s'. unfold load_item.
  destruct elm as [e|]; [|done]. destruct (items s !! e); [|done].
  intros [= _ <-]. reflexivity.
Qed.

Lemma preserves_get_shopping_cart : preserves R get_shopping_cart.
Proof. intros s a s' [= _ <-]. reflexivity. Qed.

Lemma preserves_timeout {A} : preserves R (λ _, Timeout : outcome A).
Proof. by intros s a s'. Qed.

Hypothesis R_store_first : ∀ s h v, is_Some (heads s !! h) → R s (set_heads <[h := v]> s).

Lemma preserves_store_first head v : preserves R (store_first head v).
Proof.
  intros s a s'. unfold store_first.
  destruct head as [h|]; [|done]. destruct (heads s !! h) eqn:Hh; [|done].
  intros [= _ <-]. apply R_store_first. by rewrite Hh.
Qed.

End Preserves.

Lemma preserves_store_item (R : state → state → Prop) elm f :
  (∀ s a it, items s !! a = Some it → R s (set_items <[a := f it]> s)) →
  preserves R (store_item elm f).
Proof.
  intros HR s a s'. unfold store_item.
  destruct elm as [e|]; [|done]. destruct (items s !! e) eqn:He; [|done].
  intros [= _ <-]. by apply HR.
Qed.

Global Instance data_eq_refl : Reflexive data_eq.
Proof. by intros s. Qed.

Global Instance data_eq_trans : Transitive data_eq.
Proof.
  intros s1 s2 s3 (Hc1 & Ho1 & He1) (Hc2 & Ho2 & He2).
  split; [congruence|]. split; [congruence|]. intros a. by rewrite He2.
Qed.

Lemma data_eq_set_heads s f : data_eq s (set_heads f s).
Proof. done. Qed.

Lemma data_eq_set_links s a it f :
  items s !! a = Some it → id (f it) = id it → count (f it) = count it →
  data_eq s (set_items <[a := f it]> s).
Proof.
  intros Ha Hid Hcount. split; [done|]. split; [done|].
  intros b. unfold entry_at. simpl.
  destruct (decide (a = b)) as [<-|Hne].
  - rewrite lookup_insert_eq, Ha. simpl. by rewrite Hid, Hcount.
  - by rewrite lookup_insert_ne.
Qed.

Lemma links_only_store_next elm v : preserves data_eq (store_next elm v).
Proof. apply preserves_store_item. intros. by apply data_eq_set_links. Qed.

Lemma links_only_store_prev elm v : preserves data_eq (store_prev elm v).
Proof. apply preserves_store_item. intros. by apply data_eq_set_links. Qed.

Lemma links_only_store_first head v : preserves data_eq (store_first head v).
Proof. apply preserves_store_first. intros. apply data_eq_set_heads. Qed.

Lemma links_only_load_next elm : preserves data_eq (load_next elm).
Proof.
  apply preserves_bind; [apply _..| |]; [apply preserves_load_item; apply _|].
  intros. apply preserves_ret; apply _.
Qed.

Lemma links_only_load_prev elm : preserves data_eq (load_prev elm).
Proof.
  apply preserves_bind; [apply _..| |]; [apply preserves_load_item; apply _|].
  intros. apply preserves_ret; apply _.
Qed.

Lemma links_only_bind {A B} (c : M A) (k : A → M B) :
  preserves data_eq c → (∀ a, preserves data_eq (k a)) → preserves data_eq (bind c k).
Proof. apply preserves_bind; apply _. Qed.

Lemma links_only_ret {A} (a : A) : preserves data_eq (ret a).
Proof. apply preserves_ret; apply _. Qed.

Lemma links_only_load_first head : preserves data_eq (load_first head).
Proof. apply preserves_load_first; apply _. Qed.

Lemma links_only_store_through pp v : preserves data_eq (store_through pp v).
Proof.
  destruct pp; simpl; [done|apply links_only_store_first|apply links_only_store_next].
Qed.

Global Hint Resolve links_only_bind links_only_ret links_only_load_first
  links_only_load_next links_only_load_prev links_only_store_next
  links_only_store_prev links_only_store_first links_only_store_through : preserves.

Lemma links_only_LIST_INSERT_AFTER listelm elm :
  preserves data_eq (LIST_INSERT_AFTER listelm elm).
Proof.
  unfold LIST_INSERT_AFTER.
  apply links_only_bind; [auto with preserves|]. intros n.
  repeat (apply links_only_bind; [|intros ?]); auto with preserves.
  destruct n; auto with preserves.
Qed.

Lemma links_only_LIST_INSERT_HEAD head elm :
  preserves data_eq (LIST_INSERT_HEAD head elm).
Proof.
  unfold LIST_INSERT_HEAD.
  apply links_only_bind; [auto with preserves|]. intros n.
  repeat (apply links_only_bind; [|intros ?]); auto with preserves.
  destruct n; auto with preserves.
Qed.

Lemma links_only_tail_scan fuel : ∀ curelm, preserves data_eq (tail_scan fuel curelm).
Proof.
  induction fuel as [|fuel IH]; intros curelm; simpl;
    (apply links_only_bind; [auto with preserves|]); intros [n|];
    auto with preserves.
  done.
Qed.

Lemma links_only_LIST_INSERT_TAIL fuel head elm :
  preserves data_eq (LIST_INSERT_TAIL fuel head elm).
Proof.
  unfold LIST_INSERT_TAIL.
  apply links_only_bind; [auto with preserves|]. intros [first|].
  - apply links_only_bind; [apply links_only_tail_scan|].
    intros ?. apply links_only_LIST_INSERT_AFTER.
  - apply links_only_LIST_INSERT_HEAD.
Qed.

Lemma links_only_LIST_REMOVE elm : preserves data_eq (LIST_REMOVE elm).
Proof.
  unfold LIST_REMOVE.
  apply links_only_bind; [auto with preserves|]. intros n.
  apply links_only_bind; [destruct n; auto 10 with preserves|]. intros _.
  apply links_only_bind; [auto with preserves|]. intros [| |]; auto 10 with preserves.
Qed.

(** ** The loop *)

Lemma foreach_from_all {A R} (body : ptr → A → M (A + R)) (g : positive → A → A) s l :
  ∀ fuel back p acc,
    lseg (items s) back p l None →
    (∀ a acc', a ∈ l → body (Some a) acc' s = Ret (inl (g a acc')) s) →
    (length l ≤ fuel)%nat →
    foreach_from fuel p body acc s = Ret (inl (None, foldl (λ acc' a, g a acc') acc l)) s.
Proof.
  induction l as [|a l IH]; intros fuel back p acc Hl Hbody Hfuel.
  - apply lseg_nil in Hl as ->. by destruct fuel.
  - apply lseg_cons_inv in Hl as (-> & it & Hit & _ & Hl).
    destruct fuel as [|fuel]; [simpl in Hfuel; lia|].
    simpl. unfold bind at 1. rewrite Hbody by left.
    unfold bind at 1, load_next, bind at 1, load_item. rewrite Hit. unfold ret.
    eapply IH; [done| |simpl in Hfuel; lia].
    intros b acc' Hb. apply Hbody. by right.
Qed.

Lemma foreach_from_stop {A R} (body : ptr → A → M (A + R)) (g : positive → A → A)
    s l1 a l2 v s' :
  ∀ fuel back p q acc,
    lseg (items s) back p (l1 ++ a :: l2) q →
    (∀ b acc', b ∈ l1 → body (Some b) acc' s = Ret (inl (g b acc')) s) →
    body (Some a) (foldl (λ acc' b, g b acc') acc l1) s = Ret (inr v) s' →
    (length l1 < fuel)%nat →
    foreach_from fuel p body acc s = Ret (inr v) s'.
Proof.
  induction l1 as [|b l1 IH]; intros fuel back p q acc Hl Hbody Hstop Hfuel.
  - apply lseg_cons_inv in Hl as (-> & _).
    destruct fuel as [|fuel]; [simpl in Hfuel; lia|].
    simpl in *. unfold bind. by rewrite Hstop.
  - apply lseg_cons_inv in Hl as (-> & it & Hit & _ & Hl).
    destruct fuel as [|fuel]; [simpl in Hfuel; lia|].
    simpl. unfold bind at 1. rewrite Hbody by left.
    unfold bind at 1, load_next, bind at 1, load_item. rewrite Hit. unfold ret.
    eapply IH; [done| |done|simpl in Hfuel; lia].
    intros b' acc' Hb. apply Hbody. by right.
Qed.

Lemma foldl_snoc {A B} (f : A → B) (l : list A) :
  ∀ acc, foldl (λ acc' a, acc' ++ [f a]) acc l = acc ++ (f <$> l).
Proof.
  induction l as [|a l IH]; intros acc; simpl; [by rewrite app_nil_r|].
  rewrite IH. by rewrite <-app_assoc.
Qed.

Lemma list_elements_run fuel s h l :
  is_list s h l → (length l ≤ fuel)%nat →
  list_elements fuel (Some h) s = Ret l s.
Proof.
  intros (first & Hh & Hl & _) Hfuel.
  unfold list_elements, LIST_FOREACH, bind at 1, bind at 1, load_first. rewrite Hh.
  erewrite (foreach_from_all _ (λ a acc, acc ++ [a])); [|done| |done].
  - pose proof (foldl_snoc (λ a : positive, a) l []) as Hfold.
    simpl in Hfold. rewrite Hfold. by rewrite list_fmap_id.
  - done.
Qed.

(** ** The cart *)

Lemma entry_at_Some s a x k :
  entry_at s a = Some (x, k) ↔ ∃ it, items s !! a = Some it ∧ id it = x ∧ count it = k.
Proof.
  unfold entry_at. split.
  - destruct (items s !! a) as [it|]; simpl; [|done].
    intros [= <- <-]. eauto.
  - intros (it & -> & <- & <-). done.
Qed.

Lemma is_list_live s h l a : is_list s h l → a ∈ l → is_Some (items s !! a).
Proof. intros (first & _ & Hl & _). by eapply lseg_live. Qed.

Lemma is_list_set_items s h l f :
  (∀ a, a ∈ l → links (f (items s)) a = links (items s) a) →
  is_list s h l → is_list (set_items f s) h l.
Proof.
  intros Hf (first & Hh & Hl & Hnd). exists first. simpl.
  split; [done|]. split; [|done]. by eapply lseg_ext.
Qed.

Lemma cart_entries_run fuel s l c :
  is_cart s l c → (length l ≤ fuel)%nat → cart_entries fuel s = Ret c s.
Proof.
  intros (h & Hcart & (first & Hh & Hl & _) & Hc) Hfuel.
  unfold cart_entries, bind at 1, get_shopping_cart. rewrite Hcart.
  unfold bind at 1, LIST_FOREACH, bind at 1, load_first. rewrite Hh.
  erewrite (foreach_from_all _ (λ a acc, acc ++ [default (0, 0) (entry_at s a)]));
    [|done| |done].
  - pose proof (foldl_snoc (λ a, default (0, 0) (entry_at s a)) l []) as Hfold.
    cbv beta in *. simpl app in Hfold. rewrite Hfold. f_equal.
    clear -Hc. induction Hc as [|a e l c He _ IH]; [done|].
    by rewrite fmap_cons, He, IH.
  - intros a acc Ha. eapply lseg_live in Ha as [it Hit]; [|done].
    unfold bind, load_item, entry_at. by rewrite Hit.
Qed.

Lemma entries_frame s s' l (c : list (Z * Z)) :
  (∀ a, a ∈ l → entry_at s' a = entry_at s a) →
  Forall2 (λ a e, entry_at s a = Some e) l c →
  Forall2 (λ a e, entry_at s' a = Some e) l c.
Proof.
  intros Hsame Hc. induction Hc as [|a e l c He _ IH]; constructor.
  - rewrite Hsame; [done|left].
  - apply IH. intros b Hb. apply Hsame. by right.
Qed.

Lemma entries_ids s l (c : list (Z * Z)) a e :
  Forall2 (λ a e, entry_at s a = Some e) l c →
  a ∈ l → entry_at s a = Some e → e.1 ∈ c.*1.
Proof.
  intros Hc [i Ha]%list_elem_of_lookup Hae.
  destruct (Forall2_lookup_l _ _ _ _ _ Hc Ha) as (e' & He' & Hae').
  assert (e' = e) as -> by congruence.
  apply list_elem_of_fmap. exists e. split; [done|].
  by eapply list_elem_of_lookup_2.
Qed.

Lemma find_miss_list {R} (x : Z) (k : ptr → M (unit + R)) s l (c : list (Z * Z)) :
  Forall2 (λ a e, entry_at s a = Some e) l c → x ∉ c.*1 →
  ∀ b (acc : unit), b ∈ l →
    (i <~ load_id (Some b);; if decide (i = x) then k (Some b) else ret (inl tt)) s =
    Ret (inl ((λ _ _, tt) b acc)) s.
Proof.
  intros Hc Hx b acc Hb.
  pose proof Hb as [i Hi]%list_elem_of_lookup.
  destruct (Forall2_lookup_l _ _ _ _ _ Hc Hi) as ([y n] & _ & Hbe).
  pose proof (entries_ids _ _ _ _ _ Hc Hb Hbe) as Hin. simpl in Hin.
  apply entry_at_Some in Hbe as (it & Hit & <- & <-).
  unfold_cmds. rewrite Hit. rewrite decide_False; [done|]. by intros <-.
Qed.

Section CartSteps.

Variable junk : state → item.

Lemma add_to_cart_found fuel x s h l1 a l2 (c1 : list (Z * Z)) it :
  shopping_cart s = Some h →
  is_list s h (l1 ++ a :: l2) →
  Forall2 (λ b e, entry_at s b = Some e) l1 c1 →
  x ∉ c1.*1 →
  items s !! a = Some it → id it = x →
  (length l1 < fuel)%nat →
  add_to_cart junk fuel x s =
  Ret tt (set_items <[a := set_count (wrap_int (count it + 1)) it]> s).
Proof.
  intros Hcart (first & Hh & Hl & _) Hc1 Hx Hit Hid Hfuel.
  unfold add_to_cart, bind at 1, get_shopping_cart. rewrite Hcart.
  unfold bind at 1, LIST_FOREACH, bind at 1, load_first. rewrite Hh.
  erewrite (foreach_from_stop _ (λ _ _, tt)); [done|done| | |done].
  - intros b acc Hb. by eapply (find_miss_list x (λ item, _)).
  - unfold_cmds. exec. rewrite decide_True by done. by exec.
Qed.



Lemma add_to_cart_found_cart fuel x k s l (c1 c2 : list (Z * Z)) :
  is_cart s l (c1 ++ (x, k) :: c2) → x ∉ c1.*1 → (length c1 < fuel)%nat →
  ∃ s', add_to_cart junk fuel x s = Ret tt s' ∧
        stdout s' = stdout s ∧
        is_cart s' l (c1 ++ (x, wrap_int (k + 1)) :: c2).
Proof.
  intros (h & Hcart & Hlist & Hc) Hx Hfuel.
  apply Forall2_app_inv_r in Hc as (l1 & l2' & Hc1 & Hc2 & ->).
  apply Forall2_cons_inv_r in Hc2 as (a & l2 & Ha & Hc2 & ->).
  apply entry_at_Some in Ha as (it & Hit & Hid & Hk).
  eexists. split.
  { eapply add_to_cart_found; [done..|]. by rewrite (Forall2_length _ _ _ Hc1). }
  split; [done|].
  pose proof Hlist as (_ & _ & _ & Hnd).
  apply NoDup_app in Hnd as (_ & Hdisj & [Ha2 _]%NoDup_cons).
  assert (Ha1 : a ∉ l1) by (intros ?; eapply Hdisj; [done|left]).
  assert (Hother : ∀ b, b ≠ a →
    entry_at (set_items <[a:=set_count (wrap_int (count it + 1)) it]> s) b = entry_at s b).
  { intros b Hb. unfold entry_at. simpl. by rewrite lookup_insert_ne. }
  exists h. split; [done|]. split.
  - apply is_list_set_items; [|done]. intros b _.
    destruct (decide (a = b)) as [<-|Hne].
    + rewrite links_insert_eq. unfold links. by rewrite Hit.
    + by rewrite links_insert_ne.
  - apply Forall2_app; [|constructor].
    + eapply entries_frame; [|done]. intros b Hb. apply Hother. congruence.
    + unfold entry_at. simpl. rewrite lookup_insert_eq. simpl. by rewrite Hid, Hk.
    + eapply entries_frame; [|done]. intros b Hb. apply Hother. congruence.
Qed.

Lemma add_to_cart_new_cart fuel x s l (c : list (Z * Z)) :
  is_cart s l c → x ∉ c.*1 → (length l ≤ fuel)%nat →
  ∃ s' a, add_to_cart junk fuel x s = Ret tt s' ∧
          stdout s' = stdout s ∧
          items s !! a = None ∧
          is_cart s' (l ++ [a]) (c ++ [(x, 1)]).
Proof.
  intros (h & Hcart & Hlist & Hc) Hx Hfuel.
  pose proof Hlist as (first & Hh & Hl & Hnd).
  set (a := fresh (dom (items s))).
  assert (Ha : items s !! a = None).
  { apply not_elem_of_dom. apply is_fresh. }
  assert (Hal : a ∉ l).
  { intros [it Hit]%(is_list_live _ _ _ _ Hlist). congruence. }
  set (s3 := set_items <[a := set_count 1 (set_id x (junk s))]>
               (set_items <[a := set_id x (junk s)]> (set_items <[a := junk s]> s))).
  assert (Hs3 : ∀ b, b ≠ a → items s3 !! b = items s !! b).
  { intros b Hb. simpl. by rewrite !lookup_insert_ne. }
  assert (Hlist3 : is_list s3 h l).
  { do 3 (apply is_list_set_items;
          [intros b Hb; apply links_insert_ne; simpl; congruence|]). done. }
  destruct (LIST_INSERT_TAIL_run fuel s3 h l a) as (s' & Hrun & Hlist');
    [done|done|by simpl; rewrite lookup_insert_eq|done|].
  pose proof (links_only_LIST_INSERT_TAIL _ _ _ _ _ _ Hrun) as (Hcart' & Hout' & Hent').
  exists s', a. split; [|split; [done|split; [done|]]].
  - unfold add_to_cart, bind at 1, get_shopping_cart. rewrite Hcart.
    unfold bind at 1, LIST_FOREACH, bind at 1, load_first. rewrite Hh.
    erewrite (foreach_from_all _ (λ _ _, tt)); [|done| |done].
    2:{ intros b acc Hb. by eapply (find_miss_list x (λ item, _)). }
    unfold malloc. fold a. unfold_cmds. exec. fold s3. simpl. by rewrite Hcart.
  - exists h. split; [by rewrite Hcart'|]. split; [done|].
    apply Forall2_app.
    + eapply entries_frame; [|done]. intros b Hb. rewrite Hent'.
      unfold entry_at. rewrite Hs3; [done|congruence].
    + constructor; [|done]. rewrite Hent'.
      unfold entry_at. simpl. by rewrite lookup_insert_eq.
Qed.

End CartSteps.

Lemma remove_from_cart_found_cart fuel x k s l1 a l2 (c1 c2 : list (Z * Z)) :
  is_cart s (l1 ++ a :: l2) (c1 ++ (x, k) :: c2) →
  length l1 = length c1 → x ∉ c1.*1 → (length c1 < fuel)%nat →
  ∃ s', remove_from_cart fuel x s = Ret k s' ∧
        stdout s' = stdout s ∧
        items s' !! a = None ∧
        is_cart s' (l1 ++ l2) (c1 ++ c2).
Proof.
  intros (h & Hcart & Hlist & Hc) Hlen Hx Hfuel.
  apply Forall2_app_inv in Hc as [Hc1 Hc2]; [|done].
  apply Forall2_cons_1 in Hc2 as [Ha Hc2].
  pose proof Ha as (it & Hit & Hid & Hk)%entry_at_Some.
  destruct (LIST_REMOVE_run s h l1 a l2) as (s1 & Hrun & Hlist1); [done|].
  pose proof (links_only_LIST_REMOVE _ _ _ _ Hrun) as (Hcart1 & Hout1 & Hent1).
  assert (∃ it1, items s1 !! a = Some it1) as [it1 Hit1].
  { specialize (Hent1 a). rewrite Ha in Hent1. unfold entry_at in Hent1.
    destruct (items s1 !! a); [by eauto|done]. }
  pose proof Hlist as (first & Hh & Hl & Hnd).
  apply NoDup_app in Hnd as (_ & Hdisj & [Ha2 _]%NoDup_cons).
  assert (Ha1 : a ∉ l1) by (intros ?; eapply Hdisj; [done|left]).
  assert (Ha12 : a ∉ l1 ++ l2) by (by apply not_elem_of_app).
  exists (set_items (delete a) s1). split; [|split; [done|split]].
  - unfold remove_from_cart, bind at 1, get_shopping_cart. rewrite Hcart.
    unfold bind at 1, LIST_FOREACH, bind at 1, load_first. rewrite Hh.
    erewrite (foreach_from_stop _ (λ _ _, tt)); [reflexivity|done| | |lia].
    + intros b acc Hb. by eapply (find_miss_list x (λ item, _) s l1 c1).
    + unfold load_id, load_count, bind at 1, bind at 1, load_item. rewrite Hit.
      unfold ret. rewrite decide_True by done.
      unfold bind at 1, bind at 1. rewrite Hit.
      unfold bind at 1. rewrite Hrun.
      unfold bind, free. rewrite Hit1. by rewrite Hk.
  - simpl. by rewrite lookup_delete_eq.
  - exists h. split; [by rewrite <-Hcart|]. split.
    + apply is_list_set_items; [|done]. intros b Hb.
      unfold links. rewrite lookup_delete_ne; [done|congruence].
    + apply Forall2_app; (eapply entries_frame; [|done]); intros b Hb;
        rewrite <-Hent1; unfold entry_at; simpl;
        (rewrite lookup_delete_ne; [done|congruence]).
Qed.

Lemma remove_from_cart_missing fuel x s l (c : list (Z * Z)) :
  is_cart s l c → x ∉ c.*1 → (length l ≤ fuel)%nat →
  remove_from_cart fuel x s =
  Fault NullDeref (set_stdout (λ o, o ++ [failed_msg x]) s).
Proof.
  intros (h & Hcart & (first & Hh & Hl & _) & Hc) Hx Hfuel.
  unfold remove_from_cart, bind at 1, get_shopping_cart. rewrite Hcart.
  unfold bind at 1, LIST_FOREACH, bind at 1, load_first. rewrite Hh.
  erewrite (foreach_from_all _ (λ _ _, tt)); [done|done| |done].
  intros b acc Hb. by eapply (find_miss_list x (λ item, _)).
Qed.

(** ** Machine integers *)

Lemma wrap_int_id z : INT_MIN ≤ z ≤ INT_MAX → wrap_int z = z.
Proof.
  unfold wrap_int, INT_MIN, INT_MAX. intros Hz.
  rewrite Z.mod_small; lia.
Qed.

Lemma wrap_int_range z : INT_MIN ≤ wrap_int z ≤ INT_MAX.
Proof.
  unfold wrap_int, INT_MIN, INT_MAX.
  pose proof (Z.mod_pos_bound (z + 2 ^ 31) (2 ^ 32)). lia.
Qed.

Lemma wrap_int_add z n : wrap_int (wrap_int z + n) = wrap_int (z + n).
Proof.
  unfold wrap_int.
  replace ((z + 2 ^ 31) mod 2 ^ 32 - 2 ^ 31 + n + 2 ^ 31)
    with ((z + 2 ^ 31) mod 2 ^ 32 + n) by lia.
  replace (z + n + 2 ^ 31) with ((z + 2 ^ 31) + n) by lia.
  by rewrite Zplus_mod_idemp_l.
Qed.

Lemma is_cart_length s l (c : list (Z * Z)) : is_cart s l c → length l = length c.
Proof. intros (h & _ & _ & Hc). by eapply Forall2_length. Qed.

Lemma empty_cart_is_cart : is_cart empty_cart [] [].
Proof.
  exists 1%positive. split; [done|]. split; [|constructor].
  exists None. split; [done|]. split; [done|constructor].
Qed.

Lemma full_cart_is_cart : is_cart full_cart [1%positive] [(7, INT_MAX)].
Proof.
  exists 1%positive. split; [done|]. split.
  - exists (Some 1%positive). split; [done|]. split; [|apply NoDup_singleton].
    eapply lseg_cons_intro; done.
  - by repeat constructor.
Qed.

Lemma small_cart_is_cart : is_cart small_cart [1%positive] [(7, 2)].
Proof.
  exists 1%positive. split; [done|]. split.
  - exists (Some 1%positive). split; [done|]. split; [|apply NoDup_singleton].
    eapply lseg_cons_intro; done.
  - by repeat constructor.
Qed.

(** Carts determine their contents. *)
Lemma lseg_functional m l1 :
  ∀ l2 back p, lseg m back p l1 None → lseg m back p l2 None → l1 = l2.
Proof.
  induction l1 as [|a l1 IH]; intros [|b l2] back p H1 H2.
  - done.
  - apply lseg_nil in H1 as ->. by apply lseg_cons in H2 as [? _].
  - apply lseg_nil in H2 as ->. by apply lseg_cons in H1 as [? _].
  - apply lseg_cons in H1 as (-> & n1 & Hn1 & H1).
    apply lseg_cons in H2 as ([= <-] & n2 & Hn2 & H2).
    assert (n2 = n1) as -> by congruence.
    f_equal. by eapply IH.
Qed.

Lemma is_cart_functional s l1 l2 (c1 c2 : list (Z * Z)) :
  is_cart s l1 c1 → is_cart s l2 c2 → l1 = l2 ∧ c1 = c2.
Proof.
  intros (h1 & Hh1 & (f1 & Hf1 & Hl1 & _) & Hc1) (h2 & Hh2 & (f2 & Hf2 & Hl2 & _) & Hc2).
  assert (h2 = h1) as -> by congruence.
  assert (f2 = f1) as -> by congruence.
  assert (l1 = l2) as <- by (by eapply lseg_functional).
  split; [done|]. clear -Hc1 Hc2. revert c2 Hc2.
  induction Hc1 as [|a e l c He _ IH]; intros c2 Hc2.
  - by apply Forall2_nil_inv_l in Hc2.
  - apply Forall2_cons_inv_l in Hc2 as (e' & c' & He' & Hc' & ->).
    f_equal; [congruence|by apply IH].
Qed.

Section Repeat.

Variable junk : state → item.

Lemma repeat_add_found (n : N) :
  ∀ fuel x k s l (c1 c2 : list (Z * Z)),
    is_cart s l (c1 ++ (x, k) :: c2) → x ∉ c1.*1 → (length c1 < fuel)%nat →
    INT_MIN ≤ k ≤ INT_MAX →
    ∃ s', repeat_cmd n (add_to_cart junk fuel x) s = Ret tt s' ∧
          is_cart s' l (c1 ++ (x, wrap_int (k + Z.of_N n)) :: c2).
Proof.
  induction n as [|n IH] using N.peano_ind; intros fuel x k s l c1 c2 Hcart Hx Hfuel Hk.
  - exists s. split; [done|]. by rewrite Z.add_0_r, wrap_int_id.
  - destruct (add_to_cart_found_cart junk fuel x k s l c1 c2) as (s1 & Hrun & _ & Hcart1);
      [done..|].
    destruct (IH fuel x _ s1 l c1 c2 Hcart1 Hx Hfuel (wrap_int_range _)) as (s' & Hrun' & Hcart').
    exists s'. split.
    + unfold repeat_cmd. rewrite N.iter_succ. unfold bind at 1. by rewrite Hrun.
    + rewrite wrap_int_add in Hcart'.
      by replace (k + Z.of_N (N.succ n)) with (k + 1 + Z.of_N n) by lia.
Qed.

Lemma repeat_add_new (n : N) fuel x s l (c : list (Z * Z)) :
  is_cart s l c → x ∉ c.*1 → (length l < fuel)%nat → (0 < n)%N →
  ∃ s' a, repeat_cmd n (add_to_cart junk fuel x) s = Ret tt s' ∧
          items s !! a = None ∧
          is_cart s' (l ++ [a]) (c ++ [(x, wrap_int (Z.of_N n))]).
Proof.
  intros Hcart Hx Hfuel Hn.
  pose proof (N.succ_pred_pos n Hn) as Hsucc. set (m := N.pred n) in *.
  destruct (add_to_cart_new_cart junk fuel x s l c) as (s1 & a & Hrun & _ & Ha & Hcart1);
    [done|done|lia|].
  destruct (repeat_add_found m fuel x 1 s1 (l ++ [a]) c []) as (s' & Hrun' & Hcart');
    [done|done| |done|].
  { rewrite <-(is_cart_length _ _ _ Hcart). lia. }
  exists s', a. split; [|split; [done|]].
  - rewrite <-Hsucc. unfold repeat_cmd. rewrite N.iter_succ. unfold bind at 1. by rewrite Hrun.
  - by replace (Z.of_N n) with (1 + Z.of_N m) by lia.
Qed.

End Repeat.

(** ** The static head pointer *)

Global Instance cart_fixed_refl : Reflexive cart_fixed.
Proof. by intros s. Qed.

Global Instance cart_fixed_trans : Transitive cart_fixed.
Proof. unfold cart_fixed. intros s1 s2 s3 H1 H2. congruence. Qed.

Lemma preserves_weaken {A} (R R' : state → state → Prop) (c : M A) :
  (∀ s s', R s s' → R' s s') → preserves R c → preserves R' c.
Proof. intros HR Hc s a s' Hrun. eapply HR, Hc, Hrun. Qed.

Lemma cart_fixed_of_links_only {A} (c : M A) :
  preserves data_eq c → preserves cart_fixed c.
Proof. apply preserves_weaken. by intros s s' (? & _). Qed.

Lemma cart_fixed_bind {A B} (c : M A) (k : A → M B) :
  preserves cart_fixed c → (∀ a, preserves cart_fixed (k a)) →
  preserves cart_fixed (bind c k).
Proof. apply preserves_bind; apply _. Qed.

Lemma cart_fixed_ret {A} (a : A) : preserves cart_fixed (ret a).
Proof. apply preserves_ret; apply _. Qed.

Lemma cart_fixed_load_item elm : preserves cart_fixed (load_item elm).
Proof. apply preserves_load_item; apply _. Qed.

Lemma cart_fixed_store_item elm f : preserves cart_fixed (store_item elm f).
Proof. by apply preserves_store_item. Qed.

Lemma cart_fixed_get : preserves cart_fixed get_shopping_cart.
Proof. apply preserves_get_shopping_cart; apply _. Qed.

Lemma cart_fixed_malloc junk : preserves cart_fixed (malloc junk).
Proof. by intros s a s' [= _ <-]. Qed.

Lemma cart_fixed_free elm : preserves cart_fixed (free elm).
Proof.
  intros s a s'. unfold free. destruct elm as [e|]; [|by intros [= _ <-]].
  destruct (items s !! e); [|done]. by intros [= _ <-].
Qed.

Lemma cart_fixed_print line : preserves cart_fixed (print line).
Proof. by intros s a s' [= _ <-]. Qed.

Lemma cart_fixed_foreach_from {A R} (body : ptr → A → M (A + R)) fuel :
  (∀ var acc, preserves cart_fixed (body var acc)) →
  ∀ var acc, preserves cart_fixed (foreach_from fuel var body acc).
Proof.
  intros Hbody. induction fuel as [|fuel IH]; intros [a|] acc; simpl;
    try apply cart_fixed_ret; [done|].
  apply cart_fixed_bind; [apply Hbody|]. intros [acc'|v]; [|apply cart_fixed_ret].
  apply cart_fixed_bind; [|by intros ?].
  apply cart_fixed_of_links_only, links_only_load_next.
Qed.

Lemma cart_fixed_LIST_FOREACH {A R} (body : ptr → A → M (A + R)) fuel head acc :
  (∀ var acc, preserves cart_fixed (body var acc)) →
  preserves cart_fixed (LIST_FOREACH fuel head body acc).
Proof.
  intros Hbody. apply cart_fixed_bind.
  - apply cart_fixed_of_links_only, links_only_load_first.
  - intros first. by apply cart_fixed_foreach_from.
Qed.

Global Hint Resolve cart_fixed_bind cart_fixed_ret cart_fixed_load_item
  cart_fixed_store_item cart_fixed_get cart_fixed_malloc cart_fixed_free
  cart_fixed_print : preserves.

Lemma cart_fixed_add_to_cart junk fuel x : preserves cart_fixed (add_to_cart junk fuel x).
Proof.
  unfold add_to_cart. apply cart_fixed_bind; [auto with preserves|]. intros head.
  apply cart_fixed_bind.
  - apply cart_fixed_LIST_FOREACH. intros var acc.
    unfold load_id, load_count, store_count.
    apply cart_fixed_bind; [auto with preserves|]. intros i.
    case_decide; auto 10 with preserves.
  - intros [?|?]; [|auto with preserves].
    unfold store_id, store_count.
    do 4 (apply cart_fixed_bind; [auto with preserves|]; intros ?).
    apply cart_fixed_of_links_only, links_only_LIST_INSERT_TAIL.
Qed.

Lemma cart_fixed_remove_from_cart fuel x : preserves cart_fixed (remove_from_cart fuel x).
Proof.
  unfold remove_from_cart. apply cart_fixed_bind; [auto with preserves|]. intros head.
  apply cart_fixed_bind.
  - apply cart_fixed_LIST_FOREACH. intros var acc.
    unfold load_id, load_count.
    apply cart_fixed_bind; [auto with preserves|]. intros i.
    case_decide; [|auto with preserves].
    apply cart_fixed_bind; [auto with preserves|]. intros c.
    apply cart_fixed_bind; [apply cart_fixed_of_links_only, links_only_LIST_REMOVE|].
    auto with preserves.
  - intros [[item ?]|?]; [|auto with preserves].
    unfold print_failed.
    apply cart_fixed_bind; [auto with preserves|]. intros _.
    apply cart_fixed_bind; [apply cart_fixed_of_links_only, links_only_LIST_REMOVE|].
    auto with preserves.
Qed.

Lemma null_cart_add junk fuel x s :
  shopping_cart s = None → add_to_cart junk fuel x s = Fault NullDeref s.
Proof.
  intros Hnull. unfold add_to_cart, bind at 1, get_shopping_cart. rewrite Hnull.
  done.
Qed.

Lemma null_cart_remove fuel x s :
  shopping_cart s = None → remove_from_cart fuel x s = Fault NullDeref s.
Proof.
  intros Hnull. unfold remove_from_cart, bind at 1, get_shopping_cart. rewrite Hnull.
  done.
Qed.

(** ** Tail insertion keeps insertion order *)

Lemma live_data_eq s s' a : data_eq s s' → is_Some (items s !! a) → is_Some (items s' !! a).
Proof.
  intros (_ & _ & Hent) [it Hit]. specialize (Hent a). unfold entry_at in Hent.
  rewrite Hit in Hent. destruct (items s' !! a); [by eauto|done].
Qed.

Lemma insert_tail_all_run fuel h es :
  ∀ s l,
    is_list s h l → NoDup (l ++ es) →
    (∀ e, e ∈ es → is_Some (items s !! e)) →
    (length (l ++ es) ≤ fuel)%nat →
    ∃ s', insert_tail_all fuel (Some h) es s = Ret tt s' ∧ is_list s' h (l ++ es).
Proof.
  induction es as [|e es IH]; intros s l Hlist Hnd Hlive Hfuel.
  - exists s. by rewrite app_nil_r.
  - rewrite cons_middle, app_assoc in Hnd, Hfuel |- *.
    pose proof Hnd as (Hnd' & _ & _)%NoDup_app.
    pose proof Hnd' as (_ & He & _)%NoDup_app.
    rewrite length_app in Hfuel. rewrite length_app in Hfuel. simpl in Hfuel.
    destruct (LIST_INSERT_TAIL_run fuel s h l e) as (s1 & Hrun & Hlist1);
      [done| |by apply Hlive; left|lia|].
    { intros Hin. eapply He; [done|left]. }
    pose proof (links_only_LIST_INSERT_TAIL _ _ _ _ _ _ Hrun) as Hdata.
    destruct (IH s1 (l ++ [e]) Hlist1 Hnd) as (s' & Hrun' & Hlist').
    + intros e' He'. eapply live_data_eq; [done|]. apply Hlive. by right.
    + rewrite !length_app. simpl. lia.
    + exists s'. split; [|done]. simpl. unfold bind. by rewrite Hrun.
Qed.

(** ** Ids come out in first-added order *)

Lemma ids_split (c : list (Z * Z)) x :
  x ∈ c.*1 → ∃ c1 k c2, c = c1 ++ (x, k) :: c2 ∧ x ∉ c1.*1.
Proof.
  induction c as [|[y k] c IH]; [by intros ?%elem_of_nil|].
  intros Hin. destruct (decide (y = x)) as [->|Hne].
  - exists [], k, c. split; [done|apply not_elem_of_nil].
  - rewrite fmap_cons in Hin. apply elem_of_cons in Hin as [Heq|Hin]; [by subst|].
    destruct (IH Hin) as (c1 & k' & c2 & -> & Hc1).
    exists ((y, k) :: c1), k', c2. split; [done|].
    rewrite fmap_cons. apply not_elem_of_cons. split; [simpl; congruence|done].
Qed.

Section AddAll.

Variable junk : state → item.

Lemma add_to_cart_ids fuel x s l (c : list (Z * Z)) :
  is_cart s l c → (length l ≤ fuel)%nat →
  ∃ s' l' c', add_to_cart junk fuel x s = Ret tt s' ∧
              is_cart s' l' c' ∧
              c'.*1 = note_id (c.*1) x.
Proof.
  intros Hcart Hfuel. unfold note_id. case_decide as Hin.
  - destruct (ids_split c x Hin) as (c1 & k & c2 & -> & Hc1).
    destruct (add_to_cart_found_cart junk fuel x k s l c1 c2) as (s' & Hrun & _ & Hcart');
      [done|done| |].
    { apply is_cart_length in Hcart. rewrite length_app in Hcart. simpl in Hcart. lia. }
    exists s', l, (c1 ++ (x, wrap_int (k + 1)) :: c2). split; [done|]. split; [done|].
    by rewrite !fmap_app, !fmap_cons.
  - destruct (add_to_cart_new_cart junk fuel x s l c) as (s' & a & Hrun & _ & _ & Hcart');
      [done..|].
    exists s', (l ++ [a]), (c ++ [(x, 1)]). split; [done|]. split; [done|].
    by rewrite fmap_app.
Qed.

Lemma add_all_ids fuel ids :
  ∀ s l (c : list (Z * Z)),
    is_cart s l c → (length l + length ids ≤ fuel)%nat →
    ∃ s' l' c', add_all junk fuel ids s = Ret tt s' ∧
                is_cart s' l' c' ∧
                c'.*1 = first_added (c.*1) ids.
Proof.
  induction ids as [|x ids IH]; intros s l c Hcart Hfuel.
  - by exists s, l, c.
  - simpl in Hfuel.
    destruct (add_to_cart_ids fuel x s l c) as (s1 & l1 & c1 & Hrun1 & Hcart1 & Hids1);
      [done|lia|].
    destruct (IH s1 l1 c1 Hcart1) as (s' & l' & c' & Hrun' & Hcart' & Hids').
    + apply is_cart_length in Hcart, Hcart1.
      assert (length c1 = length (c1.*1)) as Hlen by (by rewrite length_fmap).
      assert (length c = length (c.*1)) as Hlen' by (by rewrite length_fmap).
      rewrite Hids1 in Hlen. unfold note_id in Hlen.
      case_decide; [lia|]. rewrite length_app in Hlen. simpl in Hlen. lia.
    + exists s', l', c'. split; [|split; [done|]].
      * simpl. unfold bind. by rewrite Hrun1.
      * simpl. by rewrite <-Hids1.
Qed.

End AddAll.


(** * The claims *)

(** C1 (as the code has it): [remove_from_cart(x)] with no item with id [x]
    in the cart gives no result, it faults.  In the program as it stands
    [shopping_cart] is null, and the call faults on it at the start of
    [LIST_FOREACH], before anything is printed.  On a cart whose head is
    live and whose list holds no item with id [x], in particular an empty
    list, the call prints the "failed to find" line and then faults on the
    null loop variable it hands to [LIST_REMOVE]. *)
Theorem remove_from_cart_not_found_faults fuel x :
  (∀ s, shopping_cart s = None →
        remove_from_cart fuel x s = Fault NullDeref s) ∧
  (∀ s l (c : list (Z * Z)),
     is_cart s l c → x ∉ c.*1 → (length l ≤ fuel)%nat →
     remove_from_cart fuel x s =
     Fault NullDeref (set_stdout (λ o, o ++ [failed_msg x]) s)).
Proof.
  split.
  - intros s Hnull. by apply null_cart_remove.
  - intros s l c. apply remove_from_cart_missing.
Qed.

Lemma remove_from_cart_not_found_faults_witness :
  remove_from_cart 0 5 initial_state = Fault NullDeref initial_state ∧
  remove_from_cart 0 5 empty_cart =
  Fault NullDeref (set_stdout (λ o, o ++ [failed_msg 5]) empty_cart).
Proof.
  destruct (remove_from_cart_not_found_faults 0 5) as (Hnull & Hmiss).
  split.
  - apply (Hnull initial_state). reflexivity.
  - apply (Hmiss empty_cart [] []).
    + apply empty_cart_is_cart.
    + simpl. apply not_elem_of_nil.
    + simpl. lia.
Defined.

(** C1 fails as stated: in the state the program starts in, where the cart
    is empty, [remove_from_cart(5)] returns nothing, it faults on the null
    [shopping_cart]; and on an empty list with a live head it faults as
    well. *)
Lemma remove_from_cart_start_state_crashes :
  remove_from_cart 1 5 initial_state = Fault NullDeref initial_state ∧
  ¬ (∃ r s', remove_from_cart 1 5 initial_state = Ret r s') ∧
  ¬ (∃ r s', remove_from_cart 1 5 empty_cart = Ret r s').
Proof.
  split; [reflexivity|]. split.
  - intros (r & s' & Hrun). vm_compute in Hrun. discriminate.
  - intros (r & s' & Hrun). vm_compute in Hrun. discriminate.
Qed.

(** C2 (amended for the head and for [int] overflow): in the program as it
    stands [shopping_cart] is null and [add_to_cart(x)] faults on it
    without inserting anything.  On a cart whose head is live,
    [add_to_cart(x)] either finds the first item with id [x], whose count
    [k] is an [int] below [INT_MAX], adds one to it and returns with the
    same cells in the list, or, when no item has id [x], links a new cell
    with id [x] and count 1 behind all the others.  So after any sequence
    of calls the ids in the list are in the order in which they were first
    added. *)
Theorem add_to_cart_spec junk fuel x :
  (∀ s, shopping_cart s = None →
        add_to_cart junk fuel x s = Fault NullDeref s) ∧
  (∀ s l (c : list (Z * Z)),
     is_cart s l c → (length l ≤ fuel)%nat →
     (∀ c1 k c2,
        c = c1 ++ (x, k) :: c2 → x ∉ c1.*1 → INT_MIN ≤ k < INT_MAX →
        ∃ s', add_to_cart junk fuel x s = Ret tt s' ∧
              is_cart s' l (c1 ++ (x, k + 1) :: c2)) ∧
     (x ∉ c.*1 →
        ∃ s' a, add_to_cart junk fuel x s = Ret tt s' ∧
                items s !! a = None ∧
                is_cart s' (l ++ [a]) (c ++ [(x, 1)])) ∧
     (∀ ids,
        (length l + length ids ≤ fuel)%nat →
        ∃ s' l' c', add_all junk fuel ids s = Ret tt s' ∧
                    is_cart s' l' c' ∧
                    c'.*1 = first_added (c.*1) ids)).
Proof.
  split; [intros s Hnull; by apply null_cart_add|].
  intros s l c Hcart Hfuel. split; [|split].
  - intros c1 k c2 -> Hx Hk.
    destruct (add_to_cart_found_cart junk fuel x k s l c1 c2) as (s' & Hrun & _ & Hcart');
      [done|done| |].
    + apply is_cart_length in Hcart. rewrite length_app in Hcart. simpl in Hcart. lia.
    + exists s'. split; [done|]. rewrite wrap_int_id in Hcart'; [done|].
      unfold INT_MIN, INT_MAX in *. lia.
  - intros Hx.
    destruct (add_to_cart_new_cart junk fuel x s l c) as (s' & a & Hrun & _ & Ha & Hcart');
      [done..|].
    by exists s', a.
  - intros ids Hids. by eapply add_all_ids.
Qed.

Lemma add_to_cart_spec_witness :
  add_to_cart garbage 1 7 initial_state = Fault NullDeref initial_state ∧
  (∃ s', add_to_cart garbage 1 7 small_cart = Ret tt s' ∧
         is_cart s' [1%positive] [(7, 3)]) ∧
  (∃ s' a, add_to_cart garbage 1 3 empty_cart = Ret tt s' ∧
           items empty_cart !! a = None ∧
           is_cart s' [a] [(3, 1)]) ∧
  (∃ s' l' c', add_all garbage 5 [3; 1; 3; 2; 1] empty_cart = Ret tt s' ∧
               is_cart s' l' c' ∧
               c'.*1 = [3; 1; 2]).
Proof.
  split; [|split; [|split]].
  - destruct (add_to_cart_spec garbage 1 7) as (Hnull & _).
    apply (Hnull initial_state). reflexivity.
  - destruct (add_to_cart_spec garbage 1 7) as (_ & Hcart).
    destruct (Hcart small_cart [1%positive] [(7, 2)]) as (Hfound & _).
    + apply small_cart_is_cart.
    + simpl. lia.
    + apply (Hfound [] 2 []).
      * reflexivity.
      * simpl. apply not_elem_of_nil.
      * unfold INT_MIN, INT_MAX. lia.
  - destruct (add_to_cart_spec garbage 1 3) as (_ & Hcart).
    destruct (Hcart empty_cart [] []) as (_ & Hnew & _).
    + apply empty_cart_is_cart.
    + simpl. lia.
    + apply Hnew. simpl. apply not_elem_of_nil.
  - destruct (add_to_cart_spec garbage 5 3) as (_ & Hcart).
    destruct (Hcart empty_cart [] []) as (_ & _ & Hall).
    + apply empty_cart_is_cart.
    + simpl. lia.
    + apply (Hall [3; 1; 3; 2; 1]). simpl. lia.
Defined.

(** C2 fails as stated: in the state the program starts in no item has
    id 7, and [add_to_cart(7)] inserts nothing, it faults on the null
    [shopping_cart]; and on a list with a live head whose item has count
    [INT_MAX] the increment does not give [INT_MAX + 1]. *)
Lemma add_to_cart_start_state_and_int_max :
  add_to_cart garbage 1 7 initial_state = Fault NullDeref initial_state ∧
  ¬ (∃ s', add_to_cart garbage 1 7 initial_state = Ret tt s') ∧
  is_cart full_cart [1%positive] [(7, INT_MAX)] ∧
  ¬ (∃ s', add_to_cart garbage 1 7 full_cart = Ret tt s' ∧
           is_cart s' [1%positive] [(7, INT_MAX + 1)]).
Proof.
  split; [reflexivity|]. split.
  { intros (s' & Hrun). vm_compute in Hrun. discriminate. }
  split; [apply full_cart_is_cart|].
  intros (s' & Hrun & Hcart).
  destruct (add_to_cart_found_cart garbage 1 7 INT_MAX full_cart [1%positive] [] [])
    as (s1 & Hrun1 & _ & Hcart1); [apply full_cart_is_cart|apply not_elem_of_nil|simpl; lia|].
  assert (s1 = s') as -> by congruence.
  destruct (is_cart_functional _ _ _ _ _ Hcart Hcart1) as [_ Heq].
  vm_compute in Heq. discriminate.
Qed.

(** C3: when the cart holds an item with id [x], [remove_from_cart(x)]
    returns the count of the first such item, unlinks its cell from the
    list and frees it; the other items stay as they were. *)
Theorem remove_from_cart_found_spec fuel x k s l1 a l2 (c1 c2 : list (Z * Z)) :
  is_cart s (l1 ++ a :: l2) (c1 ++ (x, k) :: c2) →
  length l1 = length c1 → x ∉ c1.*1 → (length c1 < fuel)%nat →
  ∃ s', remove_from_cart fuel x s = Ret k s' ∧
        items s' !! a = None ∧
        is_cart s' (l1 ++ l2) (c1 ++ c2).
Proof.
  intros Hcart Hlen Hx Hfuel.
  destruct (remove_from_cart_found_cart fuel x k s l1 a l2 c1 c2)
    as (s' & Hrun & _ & Ha & Hcart'); [done..|].
  by exists s'.
Qed.

Lemma remove_from_cart_found_spec_witness :
  ∃ s', remove_from_cart 1 7 full_cart = Ret INT_MAX s' ∧
        items s' !! 1%positive = None ∧
        is_cart s' [] [].
Proof.
  apply (remove_from_cart_found_spec 1 7 INT_MAX full_cart [] 1%positive [] [] []).
  - apply full_cart_is_cart.
  - reflexivity.
  - simpl. apply not_elem_of_nil.
  - simpl. lia.
Defined.

(** C4 (amended for the head and for [int] overflow): in the program as it
    stands [shopping_cart] is null and already the first of the [n] calls
    of [add_to_cart(x)] faults on it.  Starting from a cart whose head is
    live and which holds no item for [x], after [n] calls of
    [add_to_cart(x)], [1 ≤ n ≤ INT_MAX], the cart holds one more item, the
    last one, with id [x] and count [n]. *)
Theorem add_to_cart_repeat_spec junk (n : N) fuel x :
  (∀ s, shopping_cart s = None → (1 ≤ n)%N →
        repeat_cmd n (add_to_cart junk fuel x) s = Fault NullDeref s) ∧
  (∀ s l (c : list (Z * Z)),
     is_cart s l c → x ∉ c.*1 → (length l < fuel)%nat →
     (1 ≤ n)%N → Z.of_N n ≤ INT_MAX →
     ∃ s' a, repeat_cmd n (add_to_cart junk fuel x) s = Ret tt s' ∧
             items s !! a = None ∧
             is_cart s' (l ++ [a]) (c ++ [(x, Z.of_N n)])).
Proof.
  split.
  - intros s Hnull Hn.
    assert (Hsucc : N.succ (N.pred n) = n) by (apply N.succ_pred_pos; lia).
    rewrite <-Hsucc. unfold repeat_cmd. rewrite N.iter_succ.
    unfold bind at 1. by rewrite null_cart_add.
  - intros s l c Hcart Hx Hfuel Hn1 Hn2.
    destruct (repeat_add_new junk n fuel x s l c) as (s' & a & Hrun & Ha & Hcart');
      [done|done|done|lia|].
    exists s', a. split; [done|]. split; [done|].
    rewrite wrap_int_id in Hcart'; [done|]. unfold INT_MIN. lia.
Qed.

Lemma add_to_cart_repeat_spec_witness :
  repeat_cmd 3 (add_to_cart garbage 1 7) initial_state = Fault NullDeref initial_state ∧
  ∃ s' a, repeat_cmd 3 (add_to_cart garbage 1 7) empty_cart = Ret tt s' ∧
          items empty_cart !! a = None ∧
          is_cart s' [a] [(7, 3)].
Proof.
  destruct (add_to_cart_repeat_spec garbage 3 1 7) as (Hnull & Hcart).
  split.
  - apply (Hnull initial_state); [reflexivity|lia].
  - apply (Hcart empty_cart [] []).
    + apply empty_cart_is_cart.
    + simpl. apply not_elem_of_nil.
    + simpl. lia.
    + lia.
    + unfold INT_MAX. lia.
Defined.

(** C4 fails as stated: in the state the program starts in, which holds no
    item with id 7, one call of [add_to_cart(7)] leaves no item with count
    1, it faults on the null [shopping_cart]; and on a list with a live
    head, after [2^31] calls the count of the item is not [2^31], which no
    [int] holds. *)
Lemma add_to_cart_repeat_start_state_and_overflow :
  repeat_cmd 1 (add_to_cart garbage 1 7) initial_state = Fault NullDeref initial_state ∧
  ¬ (∃ s', repeat_cmd 1 (add_to_cart garbage 1 7) initial_state = Ret tt s') ∧
  ¬ (∃ s' l, repeat_cmd 2147483648 (add_to_cart garbage 1 7) empty_cart = Ret tt s' ∧
             is_cart s' l [(7, 2147483648)]).
Proof.
  split; [reflexivity|]. split.
  { intros (s' & Hrun). vm_compute in Hrun. discriminate. }
  intros (s' & l & Hrun & Hcart).
  destruct (repeat_add_new garbage 2147483648 1 7 empty_cart [] [])
    as (s1 & a & Hrun1 & _ & Hcart1);
    [apply empty_cart_is_cart|apply not_elem_of_nil|simpl; lia|lia|].
  assert (s1 = s') as -> by congruence.
  destruct (is_cart_functional _ _ _ _ _ Hcart Hcart1) as [_ Heq].
  simpl in Heq. injection Heq as Heq. vm_compute in Heq. discriminate.
Qed.

(** C5 (amended for the head): in the program as it stands [shopping_cart]
    is null and the first [add_to_cart(1)] faults on it.  From an empty
    cart whose head is live, after [add_to_cart(1)], [add_to_cart(2)] and
    [remove_from_cart(1)] the list is well formed with one cell, and
    iterating the cart yields exactly the item with id 2 and count 1. *)
Theorem add_add_remove_leaves_second junk fuel :
  (∀ s, shopping_cart s = None →
        (add_to_cart junk fuel 1;; add_to_cart junk fuel 2;; remove_from_cart fuel 1) s =
        Fault NullDeref s) ∧
  (∀ s, is_cart s [] [] → (1 ≤ fuel)%nat →
     ∃ s' b,
       (add_to_cart junk fuel 1;; add_to_cart junk fuel 2;; remove_from_cart fuel 1) s =
         Ret 1 s' ∧
       is_cart s' [b] [(2, 1)] ∧
       cart_entries fuel s' = Ret [(2, 1)] s').
Proof.
  split.
  { intros s Hnull. unfold bind at 1. by rewrite null_cart_add. }
  intros s Hcart Hfuel.
  destruct (add_to_cart_new_cart junk fuel 1 s [] []) as (s1 & a & Hrun1 & _ & _ & Hcart1);
    [done|apply not_elem_of_nil|simpl; lia|].
  destruct (add_to_cart_new_cart junk fuel 2 s1 [a] [(1, 1)])
    as (s2 & b & Hrun2 & _ & _ & Hcart2); [done| |done|].
  { by intros [= ]%list_elem_of_singleton. }
  destruct (remove_from_cart_found_cart fuel 1 1 s2 [] a [b] [] [(2, 1)])
    as (s3 & Hrun3 & _ & _ & Hcart3); [done|done|apply not_elem_of_nil|done|].
  exists s3, b. split; [|split; [done|]].
  - unfold bind. by rewrite Hrun1, Hrun2.
  - by apply (cart_entries_run fuel s3 [b]).
Qed.

Lemma add_add_remove_leaves_second_witness :
  (add_to_cart garbage 1 1;; add_to_cart garbage 1 2;; remove_from_cart 1 1) initial_state =
    Fault NullDeref initial_state ∧
  ∃ s' b,
    (add_to_cart garbage 1 1;; add_to_cart garbage 1 2;; remove_from_cart 1 1) empty_cart =
      Ret 1 s' ∧
    is_cart s' [b] [(2, 1)] ∧
    cart_entries 1 s' = Ret [(2, 1)] s'.
Proof.
  destruct (add_add_remove_leaves_second garbage 1) as (Hnull & Hcart).
  split.
  - apply (Hnull initial_state). reflexivity.
  - apply (Hcart empty_cart).
    + apply empty_cart_is_cart.
    + lia.
Defined.

(** C5 fails as stated: from the state the program starts in, where the
    cart is empty, the three calls give no cart to iterate: the first
    [add_to_cart(1)] faults on the null [shopping_cart]. *)
Lemma add_add_remove_start_state_crashes :
  (add_to_cart garbage 1 1;; add_to_cart garbage 1 2;; remove_from_cart 1 1) initial_state =
    Fault NullDeref initial_state ∧
  add_to_cart garbage 1 1 initial_state = Fault NullDeref initial_state ∧
  ¬ (∃ r s',
       (add_to_cart garbage 1 1;; add_to_cart garbage 1 2;; remove_from_cart 1 1)
         initial_state = Ret r s').
Proof.
  split; [reflexivity|]. split; [reflexivity|].
  intros (r & s' & Hrun). vm_compute in Hrun. discriminate.
Qed.

(** C6 (as the code has it): in the program as it stands [shopping_cart] is
    null and the first [add_to_cart(1)] faults on it.  From an empty cart
    whose head is live, [add_to_cart(1)] twice and then
    [remove_from_cart(1)] returns 2 and leaves the cart empty; a further
    [remove_from_cart(1)] prints the "failed to find" line and faults on a
    null pointer. *)
Theorem add_add_remove_then_remove_faults junk fuel :
  (∀ s, shopping_cart s = None →
        (add_to_cart junk fuel 1;; add_to_cart junk fuel 1;; remove_from_cart fuel 1) s =
        Fault NullDeref s) ∧
  (∀ s, is_cart s [] [] → (1 ≤ fuel)%nat →
     ∃ s1,
       (add_to_cart junk fuel 1;; add_to_cart junk fuel 1;; remove_from_cart fuel 1) s =
         Ret 2 s1 ∧
       is_cart s1 [] [] ∧
       remove_from_cart fuel 1 s1 =
         Fault NullDeref (set_stdout (λ o, o ++ [failed_msg 1]) s1)).
Proof.
  split.
  { intros s Hnull. unfold bind at 1. by rewrite null_cart_add. }
  intros s Hcart Hfuel.
  destruct (add_to_cart_new_cart junk fuel 1 s [] []) as (s1 & a & Hrun1 & _ & _ & Hcart1);
    [done|apply not_elem_of_nil|simpl; lia|].
  destruct (add_to_cart_found_cart junk fuel 1 1 s1 [a] [] [])
    as (s2 & Hrun2 & _ & Hcart2); [done|apply not_elem_of_nil|done|].
  destruct (remove_from_cart_found_cart fuel 1 (wrap_int (1 + 1)) s2 [] a [] [] [])
    as (s3 & Hrun3 & _ & _ & Hcart3); [done|done|apply not_elem_of_nil|done|].
  exists s3. split; [|split; [done|]].
  - unfold bind. by rewrite Hrun1, Hrun2.
  - apply (remove_from_cart_missing fuel 1 s3 [] []); [done|apply not_elem_of_nil|simpl; lia].
Qed.

Lemma add_add_remove_then_remove_faults_witness :
  (add_to_cart garbage 1 1;; add_to_cart garbage 1 1;; remove_from_cart 1 1) initial_state =
    Fault NullDeref initial_state ∧
  ∃ s1,
    (add_to_cart garbage 1 1;; add_to_cart garbage 1 1;; remove_from_cart 1 1) empty_cart =
      Ret 2 s1 ∧
    is_cart s1 [] [] ∧
    remove_from_cart 1 1 s1 =
      Fault NullDeref (set_stdout (λ o, o ++ [failed_msg 1]) s1).
Proof.
  destruct (add_add_remove_then_remove_faults garbage 1) as (Hnull & Hcart).
  split.
  - apply (Hnull initial_state). reflexivity.
  - apply (Hcart empty_cart).
    + apply empty_cart_is_cart.
    + lia.
Defined.

(** C6 fails as stated: from the state the program starts in, where the
    cart is empty, the first [remove_from_cart(1)] returns no 2, the run
    has faulted on the null [shopping_cart] in the first [add_to_cart(1)];
    and from an empty list with a live head the second
    [remove_from_cart(1)] gives no result, it faults on a null pointer. *)
Lemma add_add_remove_remove_crashes :
  (add_to_cart garbage 1 1;; add_to_cart garbage 1 1;; remove_from_cart 1 1) initial_state =
    Fault NullDeref initial_state ∧
  ¬ (∃ r s',
       (add_to_cart garbage 1 1;; add_to_cart garbage 1 1;; remove_from_cart 1 1)
         initial_state = Ret r s') ∧
  (∃ s', (add_to_cart garbage 1 1;; add_to_cart garbage 1 1;;
          remove_from_cart 1 1;; remove_from_cart 1 1) empty_cart = Fault NullDeref s') ∧
  ¬ (∃ r s', (add_to_cart garbage 1 1;; add_to_cart garbage 1 1;;
              remove_from_cart 1 1;; remove_from_cart 1 1) empty_cart = Ret r s').
Proof.
  split; [reflexivity|]. split.
  { intros (r & s' & Hrun). vm_compute in Hrun. discriminate. }
  split.
  - eexists. vm_compute. reflexivity.
  - intros (r & s' & Hrun). vm_compute in Hrun. discriminate.
Qed.

(** C7: [LIST_INSERT_TAIL] of [N] distinct live elements, one by one, into
    a list that starts empty succeeds, and [LIST_FOREACH] then visits
    exactly these elements in the order of insertion. *)
Theorem insert_tail_all_foreach_order fuel s h es :
  heads s !! h = Some None → NoDup es →
  (∀ e, e ∈ es → is_Some (items s !! e)) →
  (length es ≤ fuel)%nat →
  ∃ s', insert_tail_all fuel (Some h) es s = Ret tt s' ∧
        list_elements fuel (Some h) s' = Ret es s'.
Proof.
  intros Hh Hnd Hlive Hfuel.
  destruct (insert_tail_all_run fuel h es s []) as (s' & Hrun & Hlist); [|done..|].
  { exists None. split; [done|]. split; [done|constructor]. }
  exists s'. split; [done|]. by apply list_elements_run.
Qed.

Lemma insert_tail_all_foreach_order_witness :
  ∃ s', insert_tail_all 3 (Some 1%positive) [5; 9; 2]%positive three_cells = Ret tt s' ∧
        list_elements 3 (Some 1%positive) s' = Ret [5; 9; 2]%positive s'.
Proof.
  apply (insert_tail_all_foreach_order 3 three_cells 1%positive [5; 9; 2]%positive).
  - reflexivity.
  - refine (bool_decide_unpack _ _). vm_compute. exact I.
  - intros e He.
    repeat (apply elem_of_cons in He as [->|He]); [by exists junk0..|].
    by apply elem_of_nil in He.
  - simpl. lia.
Defined.

(** C8 (amended for the element of an insert): each list operation takes a
    well-formed list to a well-formed list (every element reached once from
    the head, no duplicates, every [le_prev] the address of the pointer to
    its element), provided the element of an insert is a live cell that is
    not already in the list: [LIST_INSERT_HEAD] puts it first,
    [LIST_INSERT_AFTER] right behind its member anchor, [LIST_INSERT_TAIL]
    last, and [LIST_REMOVE] takes a member out. *)
Theorem list_operations_keep_invariant :
  (∀ s h l e,
     is_list s h l → e ∉ l → is_Some (items s !! e) →
     ∃ s', LIST_INSERT_HEAD (Some h) (Some e) s = Ret tt s' ∧ is_list s' h (e :: l)) ∧
  (∀ s h l1 x l2 e,
     is_list s h (l1 ++ x :: l2) → e ∉ l1 ++ x :: l2 → is_Some (items s !! e) →
     ∃ s', LIST_INSERT_AFTER (Some x) (Some e) s = Ret tt s' ∧
           is_list s' h (l1 ++ x :: e :: l2)) ∧
  (∀ fuel s h l e,
     is_list s h l → e ∉ l → is_Some (items s !! e) → (length l ≤ fuel)%nat →
     ∃ s', LIST_INSERT_TAIL fuel (Some h) (Some e) s = Ret tt s' ∧
           is_list s' h (l ++ [e])) ∧
  (∀ s h l1 a l2,
     is_list s h (l1 ++ a :: l2) →
     ∃ s', LIST_REMOVE (Some a) s = Ret tt s' ∧ is_list s' h (l1 ++ l2)).
Proof.
  split; [|split; [|split]].
  - apply LIST_INSERT_HEAD_run.
  - apply LIST_INSERT_AFTER_run.
  - apply LIST_INSERT_TAIL_run.
  - apply LIST_REMOVE_run.
Qed.

Lemma list_operations_keep_invariant_witness :
  ∃ s1 s2 s3 s4,
    LIST_INSERT_HEAD (Some 1%positive) (Some 5%positive) three_cells = Ret tt s1 ∧
    LIST_INSERT_AFTER (Some 5%positive) (Some 9%positive) s1 = Ret tt s2 ∧
    LIST_INSERT_TAIL 2 (Some 1%positive) (Some 2%positive) s2 = Ret tt s3 ∧
    LIST_REMOVE (Some 9%positive) s3 = Ret tt s4 ∧
    is_list s4 1 [5; 2]%positive.
Proof.
  destruct list_operations_keep_invariant as (Hhead & Hafter & Htail & Hremove).
  assert (Hlist0 : is_list three_cells 1 []).
  { exists None. split; [done|]. split; [done|constructor]. }
  destruct (Hhead three_cells 1%positive [] 5%positive Hlist0) as (s1 & Hrun1 & Hlist1);
    [apply not_elem_of_nil|by eexists|].
  pose proof (links_only_LIST_INSERT_HEAD _ _ _ _ _ Hrun1) as Hdata1.
  destruct (Hafter s1 1%positive [] 5%positive [] 9%positive Hlist1) as (s2 & Hrun2 & Hlist2).
  { by intros [= ]%list_elem_of_singleton. }
  { eapply live_data_eq; [done|by eexists]. }
  pose proof (links_only_LIST_INSERT_AFTER _ _ _ _ _ Hrun2) as Hdata2.
  destruct (Htail 2%nat s2 1%positive [5; 9]%positive 2%positive Hlist2) as (s3 & Hrun3 & Hlist3).
  { intros [[= ]|[= ]%list_elem_of_singleton]%elem_of_cons. }
  { eapply live_data_eq; [done|]. eapply live_data_eq; [done|by eexists]. }
  { simpl. lia. }
  destruct (Hremove s3 1%positive [5%positive] 9%positive [2%positive] Hlist3)
    as (s4 & Hrun4 & Hlist4).
  by exists s1, s2, s3, s4.
Defined.

(** C8 fails as stated: [LIST_INSERT_HEAD] of the one member of a
    well-formed list returns, and what it leaves is no well-formed list of
    any elements: the element is its own successor. *)
Lemma LIST_INSERT_HEAD_of_member_breaks_invariant :
  is_list small_cart 1 [1%positive] ∧
  ∃ s', LIST_INSERT_HEAD (Some 1%positive) (Some 1%positive) small_cart = Ret tt s' ∧
        ∀ l, ¬ is_list s' 1 l.
Proof.
  split.
  { destruct small_cart_is_cart as (h & Hh & Hlist & _).
    vm_compute in Hh. injection Hh as <-. exact Hlist. }
  eexists. split; [vm_compute; reflexivity|].
  intros l (first & Hhead & Hseg & Hnd).
  vm_compute in Hhead. injection Hhead as <-.
  destruct l as [|a l].
  { apply lseg_nil in Hseg. discriminate. }
  apply lseg_cons in Hseg as (Ha & n & Hlinks & Hseg).
  injection Ha as <-.
  vm_compute in Hlinks. injection Hlinks as <-.
  destruct l as [|b l].
  { apply lseg_nil in Hseg. discriminate. }
  apply lseg_cons in Hseg as (Hb & _).
  injection Hb as <-.
  apply NoDup_cons in Hnd as [Hnotin _].
  apply Hnotin. apply elem_of_cons. by left.
Qed.

(** C9: [get_cost] is 10 for id 1, 12 for id 2 and 0 for every other id;
    [get_name] is "apple" for id 1, "banana" for id 2 and "bad id" for
    every other id.  Both are functions of the id alone. *)
Theorem get_cost_get_name_spec :
  get_cost 1 = 10 ∧ get_cost 2 = 12 ∧
  (∀ x, x ≠ 1 → x ≠ 2 → get_cost x = 0) ∧
  get_name 1 = "apple" ∧ get_name 2 = "banana" ∧
  (∀ x, x ≠ 1 → x ≠ 2 → get_name x = "bad id").
Proof.
  repeat split; try reflexivity; intros x H1 H2.
  - unfold get_cost. by rewrite !decide_False.
  - unfold get_name. by rewrite !decide_False.
Qed.

Lemma get_cost_get_name_spec_witness :
  get_cost 99 = 0 ∧ get_name 99 = "bad id" ∧ get_cost (-3) = 0 ∧ get_name 0 = "bad id".
Proof.
  destruct get_cost_get_name_spec as (_ & _ & Hcost & _ & _ & Hname).
  split; [apply Hcost; lia|]. split; [apply Hname; lia|].
  split; [apply Hcost; lia|apply Hname; lia].
Defined.

(** C10: the static [shopping_cart] starts out null and neither function
    ever assigns it; with a null [shopping_cart] both [add_to_cart] and
    [remove_from_cart] fault on their first access to the head, for every
    id, without having changed anything. *)
Theorem null_shopping_cart_faults :
  shopping_cart initial_state = None ∧
  (∀ junk fuel x,
     preserves cart_fixed (add_to_cart junk fuel x) ∧
     preserves cart_fixed (remove_from_cart fuel x)) ∧
  (∀ junk fuel x s,
     shopping_cart s = None →
     add_to_cart junk fuel x s = Fault NullDeref s ∧
     remove_from_cart fuel x s = Fault NullDeref s).
Proof.
  split; [done|]. split.
  - intros junk fuel x. split.
    + apply cart_fixed_add_to_cart.
    + apply cart_fixed_remove_from_cart.
  - intros junk fuel x s Hnull. split.
    + by apply null_cart_add.
    + by apply null_cart_remove.
Qed.

Lemma null_shopping_cart_faults_witness :
  add_to_cart garbage 4 1 initial_state = Fault NullDeref initial_state ∧
  remove_from_cart 4 1 initial_state = Fault NullDeref initial_state.
Proof.
  destruct null_shopping_cart_faults as (Hinit & _ & Hfault).
  apply (Hfault garbage 4%nat 1 initial_state Hinit).
Defined.

(** * Further lemmas *)

(** ** Cells and states *)

Lemma state_eq s1 s2 :
  shopping_cart s1 = shopping_cart s2 → heads s1 = heads s2 →
  items s1 = items s2 → stdout s1 = stdout s2 → s1 = s2.
Proof. destruct s1, s2. simpl. by intros -> -> -> ->. Qed.

Ltac map_eq_inserts :=
  apply map_eq; intros ?; rewrite ?lookup_insert; repeat case_decide; subst;
  try done; try congruence.

(** ** Insert, then remove *)

Lemma bind_run {A B} (c : M A) (k : A → M B) s a s' :
  c s = Ret a s' → bind c k s = k a s'.
Proof. intros Hrun. unfold bind. by rewrite Hrun. Qed.

(** Insert, then remove: the list is as before. *)
Lemma insert_head_remove s h l e :
  is_list s h l → e ∉ l → is_Some (items s !! e) →
  ∃ s', (LIST_INSERT_HEAD (Some h) (Some e);; LIST_REMOVE (Some e)) s = Ret tt s' ∧
        is_list s' h l ∧ data_eq s s'.
Proof.
  intros Hlist He Hlive.
  destruct (LIST_INSERT_HEAD_run s h l e) as (s1 & Hrun1 & Hlist1); [done..|].
  destruct (LIST_REMOVE_run s1 h [] e l) as (s2 & Hrun2 & Hlist2); [done|].
  exists s2. split; [by rewrite (bind_run _ _ _ _ _ Hrun1)|]. split; [done|].
  transitivity s1.
  - by eapply links_only_LIST_INSERT_HEAD.
  - by eapply links_only_LIST_REMOVE.
Qed.

Lemma insert_after_remove s h l1 x l2 e :
  is_list s h (l1 ++ x :: l2) → e ∉ l1 ++ x :: l2 → is_Some (items s !! e) →
  ∃ s', (LIST_INSERT_AFTER (Some x) (Some e);; LIST_REMOVE (Some e)) s = Ret tt s' ∧
        is_list s' h (l1 ++ x :: l2) ∧ data_eq s s'.
Proof.
  intros Hlist He Hlive.
  destruct (LIST_INSERT_AFTER_run s h l1 x l2 e) as (s1 & Hrun1 & Hlist1); [done..|].
  destruct (LIST_REMOVE_run s1 h (l1 ++ [x]) e l2) as (s2 & Hrun2 & Hlist2).
  { by rewrite <-app_assoc. }
  exists s2. split; [by rewrite (bind_run _ _ _ _ _ Hrun1)|].
  split; [by rewrite <-app_assoc in Hlist2|].
  transitivity s1.
  - by eapply links_only_LIST_INSERT_AFTER.
  - by eapply links_only_LIST_REMOVE.
Qed.

Lemma insert_tail_remove fuel s h l e :
  is_list s h l → e ∉ l → is_Some (items s !! e) → (length l ≤ fuel)%nat →
  ∃ s', (LIST_INSERT_TAIL fuel (Some h) (Some e);; LIST_REMOVE (Some e)) s = Ret tt s' ∧
        is_list s' h l ∧ data_eq s s'.
Proof.
  intros Hlist He Hlive Hfuel.
  destruct (LIST_INSERT_TAIL_run fuel s h l e) as (s1 & Hrun1 & Hlist1); [done..|].
  destruct (LIST_REMOVE_run s1 h l e []) as (s2 & Hrun2 & Hlist2); [done|].
  exists s2. split; [by rewrite (bind_run _ _ _ _ _ Hrun1)|].
  split; [by rewrite app_nil_r in Hlist2|].
  transitivity s1.
  - by eapply links_only_LIST_INSERT_TAIL.
  - by eapply links_only_LIST_REMOVE.
Qed.

(** [LIST_INSERT_TAIL] is [LIST_INSERT_HEAD] on an empty list and
    [LIST_INSERT_AFTER] the last element otherwise. *)
Lemma LIST_INSERT_TAIL_cases fuel s h l elm :
  is_list s h l → (length l ≤ fuel)%nat →
  LIST_INSERT_TAIL fuel (Some h) elm s =
  match last l with
  | None => LIST_INSERT_HEAD (Some h) elm s
  | Some z => LIST_INSERT_AFTER (Some z) elm s
  end.
Proof.
  intros (first & Hh & Hl & _) Hfuel.
  unfold LIST_INSERT_TAIL, bind at 1, load_first. rewrite Hh.
  destruct l as [|a l].
  - by apply lseg_nil in Hl as ->.
  - pose proof Hl as (-> & _)%lseg_cons_inv.
    unfold bind at 1. erewrite tail_scan_spec; [|done|simpl in Hfuel; lia].
    destruct (last (a :: l)) eqn:Hlast; [done|]. by apply last_None in Hlast.
Qed.

(** A cell that is its own successor keeps the loop going for ever. *)
Lemma foreach_self_loop {A R} (body : ptr → A → M (A + R)) (g : A → A) s e it :
  items s !! e = Some it → le_next it = Some e →
  (∀ acc, body (Some e) acc s = Ret (inl (g acc)) s) →
  ∀ fuel acc, foreach_from fuel (Some e) body acc s = Timeout.
Proof.
  intros Hit Hnext Hbody. induction fuel as [|fuel IH]; intros acc; [done|].
  simpl. unfold bind at 1. rewrite Hbody.
  unfold bind at 1, load_next, bind at 1, load_item. rewrite Hit. unfold ret.
  rewrite Hnext. apply IH.
Qed.

(** ** The association list *)

Lemma add_entry_new x (c : list (Z * Z)) : x ∉ c.*1 → add_entry x c = c ++ [(x, 1)].
Proof.
  induction c as [|[y k] c IH]; [done|].
  rewrite fmap_cons, not_elem_of_cons. simpl. intros [Hne Hx].
  rewrite decide_False by done. by rewrite IH.
Qed.

Lemma add_entry_found x k (c1 c2 : list (Z * Z)) :
  x ∉ c1.*1 → add_entry x (c1 ++ (x, k) :: c2) = c1 ++ (x, wrap_int (k + 1)) :: c2.
Proof.
  induction c1 as [|[y k'] c1 IH].
  - intros _. simpl. by rewrite decide_True.
  - rewrite fmap_cons, not_elem_of_cons. simpl. intros [Hne Hx].
    rewrite decide_False by done. by rewrite IH.
Qed.

Lemma remove_entry_none x (c : list (Z * Z)) : x ∉ c.*1 → remove_entry x c = None.
Proof.
  induction c as [|[y k] c IH]; [done|].
  rewrite fmap_cons, not_elem_of_cons. simpl. intros [Hne Hx].
  rewrite decide_False by done. by rewrite IH.
Qed.

Lemma remove_entry_found x k (c1 c2 : list (Z * Z)) :
  x ∉ c1.*1 → remove_entry x (c1 ++ (x, k) :: c2) = Some (k, c1 ++ c2).
Proof.
  induction c1 as [|[y k'] c1 IH].
  - intros _. simpl. by rewrite decide_True.
  - rewrite fmap_cons, not_elem_of_cons. simpl. intros [Hne Hx].
    rewrite decide_False by done. by rewrite IH.
Qed.

Lemma add_entry_length x (c : list (Z * Z)) :
  (length (add_entry x c) ≤ S (length c))%nat.
Proof.
  induction c as [|[y k] c IH]; simpl; [lia|]. case_decide; simpl; lia.
Qed.

Lemma remove_entry_length x (c : list (Z * Z)) k c' :
  remove_entry x c = Some (k, c') → (length c' < length c)%nat.
Proof.
  revert k c'. induction c as [|[y n] c IH]; intros k c'; simpl; [done|].
  case_decide.
  - intros [= _ <-]. lia.
  - destruct (remove_entry x c) as [[r c'']|]; simpl; [|done].
    intros [= _ <-]. simpl. specialize (IH r c'' eq_refl). lia.
Qed.

Section Refine.

Variable junk : state → item.

Lemma add_to_cart_refines fuel x s l (c : list (Z * Z)) :
  is_cart s l c → (length l ≤ fuel)%nat →
  ∃ s' l', add_to_cart junk fuel x s = Ret tt s' ∧
           stdout s' = stdout s ∧
           is_cart s' l' (add_entry x c).
Proof.
  intros Hcart Hfuel. destruct (decide (x ∈ c.*1)) as [Hin|Hin].
  - destruct (ids_split c x Hin) as (c1 & k & c2 & -> & Hc1).
    destruct (add_to_cart_found_cart junk fuel x k s l c1 c2) as (s' & Hrun & Hout & Hcart');
      [done|done| |].
    { apply is_cart_length in Hcart. rewrite length_app in Hcart. simpl in Hcart. lia. }
    exists s', l. by rewrite add_entry_found.
  - destruct (add_to_cart_new_cart junk fuel x s l c) as (s' & a & Hrun & Hout & _ & Hcart');
      [done..|].
    exists s', (l ++ [a]). by rewrite add_entry_new.
Qed.

Lemma remove_from_cart_refines fuel x s l (c : list (Z * Z)) :
  is_cart s l c → (length l ≤ fuel)%nat →
  match remove_entry x c with
  | Some (k, c') =>
      ∃ s' l', remove_from_cart fuel x s = Ret k s' ∧
               stdout s' = stdout s ∧
               is_cart s' l' c'
  | None =>
      remove_from_cart fuel x s =
      Fault NullDeref (set_stdout (λ o, o ++ [failed_msg x]) s)
  end.
Proof.
  intros Hcart Hfuel. destruct (decide (x ∈ c.*1)) as [Hin|Hin].
  - destruct (ids_split c x Hin) as (c1 & k & c2 & -> & Hc1).
    rewrite remove_entry_found by done.
    pose proof Hcart as (h & _ & _ & Hc).
    apply Forall2_app_inv_r in Hc as (l1 & l2' & Hc1' & Hc2 & ->).
    apply Forall2_cons_inv_r in Hc2 as (a & l2 & _ & _ & ->).
    pose proof (Forall2_length _ _ _ Hc1') as Hlen.
    destruct (remove_from_cart_found_cart fuel x k s l1 a l2 c1 c2)
      as (s' & Hrun & Hout & _ & Hcart'); [done|done|done| |].
    { rewrite length_app in Hfuel. simpl in Hfuel. lia. }
    by exists s', (l1 ++ l2).
  - rewrite remove_entry_none by done. by eapply remove_from_cart_missing.
Qed.

Lemma run_calls_refines fuel ks :
  ∀ s l (c : list (Z * Z)),
    is_cart s l c → (length l + length ks ≤ fuel)%nat →
    match model_calls c ks with
    | Some c' => ∃ s' l', run_calls junk fuel ks s = Ret tt s' ∧ is_cart s' l' c'
    | None => ∃ s', run_calls junk fuel ks s = Fault NullDeref s'
    end.
Proof.
  induction ks as [|k ks IH]; intros s l c Hcart Hfuel.
  - simpl. by exists s, l.
  - simpl in Hfuel.
    assert (Hstep : ∀ s1 l1 c1,
      run_call junk fuel k s = Ret tt s1 → is_cart s1 l1 c1 →
      (length c1 ≤ S (length c))%nat →
      match model_calls c1 ks with
      | Some c' => ∃ s' l', run_calls junk fuel (k :: ks) s = Ret tt s' ∧ is_cart s' l' c'
      | None => ∃ s', run_calls junk fuel (k :: ks) s = Fault NullDeref s'
      end).
    { intros s1 l1 c1 Hrun Hcart1 Hlen.
      assert (Hfuel1 : (length l1 + length ks ≤ fuel)%nat).
      { apply is_cart_length in Hcart, Hcart1. lia. }
      specialize (IH s1 l1 c1 Hcart1 Hfuel1). simpl.
      destruct (model_calls c1 ks).
      - destruct IH as (s' & l' & Hrun' & Hcart'). exists s', l'.
        by rewrite (bind_run _ _ _ _ _ Hrun).
      - destruct IH as (s' & Hrun'). exists s'.
        by rewrite (bind_run _ _ _ _ _ Hrun). }
    destruct k as [x|x]; simpl model_calls; simpl model_call.
    + destruct (add_to_cart_refines fuel x s l c) as (s1 & l1 & Hrun & _ & Hcart1);
        [done|lia|].
      apply (Hstep s1 l1); [done|done|apply add_entry_length].
    + pose proof (remove_from_cart_refines fuel x s l c Hcart) as Hrem.
      destruct (remove_entry x c) as [[r c1]|] eqn:Hmodel; simpl.
      * destruct Hrem as (s1 & l1 & Hrun & _ & Hcart1); [lia|].
        apply (Hstep s1 l1); [|done|].
        -- simpl. by rewrite (bind_run _ _ _ _ _ Hrun).
        -- pose proof (remove_entry_length _ _ _ _ Hmodel). lia.
      * eexists. unfold bind at 1, bind at 1. rewrite Hrem; [done|lia].
Qed.

End Refine.

(** Distinct ids stay distinct. *)
Lemma add_entry_ids x (c : list (Z * Z)) : (add_entry x c).*1 = note_id (c.*1) x.
Proof.
  unfold note_id. case_decide as Hin.
  - destruct (ids_split c x Hin) as (c1 & k & c2 & -> & Hc1).
    rewrite add_entry_found by done. by rewrite !fmap_app, !fmap_cons.
  - rewrite add_entry_new by done. by rewrite fmap_app.
Qed.

Lemma add_entry_NoDup x (c : list (Z * Z)) : NoDup (c.*1) → NoDup ((add_entry x c).*1).
Proof.
  intros Hnd. rewrite add_entry_ids. unfold note_id. case_decide; [done|].
  apply NoDup_app. split; [done|]. split; [|apply NoDup_singleton].
  intros y Hy Hy'. apply list_elem_of_singleton in Hy' as ->. done.
Qed.

Lemma remove_entry_ids x (c : list (Z * Z)) k c' :
  NoDup (c.*1) → remove_entry x c = Some (k, c') →
  NoDup (c'.*1) ∧ (x ∉ c'.*1) ∧ (∀ y, y ≠ x → y ∈ c.*1 → y ∈ c'.*1).
Proof.
  intros Hnd Hrem.
  destruct (decide (x ∈ c.*1)) as [Hin|Hin]; [|by rewrite remove_entry_none in Hrem].
  destruct (ids_split c x Hin) as (c1 & n & c2 & -> & Hc1).
  rewrite remove_entry_found in Hrem by done. injection Hrem as <- <-.
  rewrite fmap_app, fmap_cons in Hnd. simpl in Hnd.
  apply NoDup_app in Hnd as (Hnd1 & Hdisj & [Hx2 Hnd2]%NoDup_cons).
  rewrite fmap_app. split; [|split].
  - apply NoDup_app. split; [done|]. split; [|done].
    intros y Hy Hy'. eapply Hdisj; [done|by right].
  - by apply not_elem_of_app.
  - intros y Hne. rewrite fmap_app, fmap_cons, !elem_of_app, elem_of_cons. simpl.
    intros [?|[?|?]]; [by left|done|by right].
Qed.

(** ** Counting *)

Lemma cart_count_add_entry x y (c : list (Z * Z)) :
  cart_count x (add_entry y c) =
  if decide (y = x) then wrap_int (cart_count x c + 1) else cart_count x c.
Proof.
  induction c as [|[z k] c IH]; simpl.
  - case_decide; [|done]. by vm_compute.
  - destruct (decide (z = y)) as [->|Hzy]; simpl.
    + destruct (decide (y = x)); [done|done].
    + destruct (decide (z = x)) as [->|Hzx].
      * by rewrite decide_False by done.
      * done.
Qed.

Lemma occurrences_cons x y ids :
  occurrences x (y :: ids) = (if decide (y = x) then 1 else 0) + occurrences x ids.
Proof.
  unfold occurrences. rewrite filter_cons. case_decide; simpl length; lia.
Qed.

Lemma occurrences_nonneg x ids : 0 ≤ occurrences x ids.
Proof. unfold occurrences. lia. Qed.

Lemma occurrences_le_length x ids : occurrences x ids ≤ Z.of_nat (length ids).
Proof. unfold occurrences. pose proof (length_filter (λ y, y = x) ids). lia. Qed.

Lemma add_all_model junk fuel ids :
  ∀ s, add_all junk fuel ids s = run_calls junk fuel (Add <$> ids) s.
Proof.
  induction ids as [|x ids IH]; intros s; [done|].
  simpl. unfold bind. destruct (add_to_cart junk fuel x s); [apply IH|done..].
Qed.

Lemma model_calls_adds ids :
  ∀ c, model_calls c (Add <$> ids) = Some (foldl (λ c' x, add_entry x c') c ids).
Proof. induction ids as [|x ids IH]; intros c; [done|]. simpl. apply IH. Qed.

Lemma tally_adds x ids :
  ∀ c,
    0 ≤ cart_count x c → cart_count x c + occurrences x ids ≤ INT_MAX →
    cart_count x (foldl (λ c' y, add_entry y c') c ids) =
    cart_count x c + occurrences x ids.
Proof.
  induction ids as [|y ids IH]; intros c Hlo Hhi.
  - unfold occurrences. simpl. lia.
  - rewrite occurrences_cons in Hhi |- *. simpl.
    pose proof (occurrences_nonneg x ids) as Hocc.
    assert (Hstep : cart_count x (add_entry y c) =
                    cart_count x c + (if decide (y = x) then 1 else 0)).
    { rewrite cart_count_add_entry. case_decide; [|lia].
      apply wrap_int_id. unfold INT_MIN, INT_MAX in *. lia. }
    rewrite IH; [lia| |]; rewrite Hstep; case_decide; lia.
Qed.

Lemma ids_adds ids :
  ∀ c : list (Z * Z),
    (foldl (λ c' y, add_entry y c') c ids).*1 = first_added (c.*1) ids.
Proof.
  induction ids as [|y ids IH]; intros c; [done|].
  simpl. rewrite IH. by rewrite add_entry_ids.
Qed.

Lemma add_all_tally junk fuel ids s l (c : list (Z * Z)) :
  is_cart s l c → (length l + length ids ≤ fuel)%nat →
  ∃ s' l' c',
    add_all junk fuel ids s = Ret tt s' ∧
    is_cart s' l' c' ∧
    c'.*1 = first_added (c.*1) ids ∧
    ∀ x, 0 ≤ cart_count x c → cart_count x c + occurrences x ids ≤ INT_MAX →
         cart_count x c' = cart_count x c + occurrences x ids.
Proof.
  intros Hcart Hfuel.
  pose proof (run_calls_refines junk fuel (Add <$> ids) s l c Hcart) as Href.
  rewrite length_fmap, model_calls_adds in Href.
  destruct (Href Hfuel) as (s' & l' & Hrun & Hcart').
  exists s', l', (foldl (λ c' y, add_entry y c') c ids).
  split; [by rewrite add_all_model|]. split; [done|]. split; [apply ids_adds|].
  intros x. apply tally_adds.
Qed.

(** ** What the cart functions never do *)

Lemma bind_inv {A B} (c : M A) (k : A → M B) s b s' :
  bind c k s = Ret b s' → ∃ a s1, c s = Ret a s1 ∧ k a s1 = Ret b s'.
Proof. unfold bind. destruct (c s) as [a s1| |]; [by eauto|done..]. Qed.

Lemma data_eq_live s s' a :
  data_eq s s' → is_Some (items s' !! a) ↔ is_Some (items s !! a).
Proof.
  intros (_ & _ & Hent). specialize (Hent a). unfold entry_at in Hent.
  destruct (items s !! a), (items s' !! a); simpl in Hent; try done;
    split; intros [? ?]; by eauto.
Qed.

Global Instance keeps_cells_refl : Reflexive keeps_cells.
Proof. by intros s. Qed.

Global Instance keeps_cells_trans : Transitive keeps_cells.
Proof.
  intros s1 s2 s3 [Ho1 Hc1] [Ho2 Hc2]. split; [congruence|]. eauto.
Qed.

Global Instance makes_no_cells_refl : Reflexive makes_no_cells.
Proof. by intros s. Qed.

Global Instance makes_no_cells_trans : Transitive makes_no_cells.
Proof.
  intros s1 s2 s3 [Ho1 Hc1] [Ho2 Hc2]. split; [congruence|]. eauto.
Qed.

Section Generic.

Context (R : state → state → Prop) `{!Reflexive R, !Transitive R}.
Hypothesis R_links : ∀ s s', data_eq s s' → R s s'.
Hypothesis R_store :
  ∀ s a it it', items s !! a = Some it → R s (set_items <[a := it']> s).

Lemma R_of_links_only {A} (c : M A) : preserves data_eq c → preserves R c.
Proof. by apply preserves_weaken. Qed.

Lemma R_store_item elm f : preserves R (store_item elm f).
Proof. apply preserves_store_item. intros. by eapply R_store. Qed.

Lemma R_foreach_from {A B} (body : ptr → A → M (A + B)) fuel :
  (∀ var acc, preserves R (body var acc)) →
  ∀ var acc, preserves R (foreach_from fuel var body acc).
Proof.
  intros Hbody. induction fuel as [|fuel IH]; intros [a|] acc; simpl;
    try (by apply preserves_ret); [done|].
  apply preserves_bind; [done..|apply Hbody|]. intros [acc'|v]; [|by apply preserves_ret].
  apply preserves_bind; [done..| |by intros ?].
  apply R_of_links_only, links_only_load_next.
Qed.

Lemma R_LIST_FOREACH {A B} (body : ptr → A → M (A + B)) fuel head acc :
  (∀ var acc, preserves R (body var acc)) →
  preserves R (LIST_FOREACH fuel head body acc).
Proof.
  intros Hbody. apply preserves_bind; [done..| |].
  - apply R_of_links_only, links_only_load_first.
  - intros first. by apply R_foreach_from.
Qed.

Lemma R_add_to_cart junk fuel x :
  (∀ s it, R s (set_items <[fresh (dom (items s)) := it]> s)) →
  preserves R (add_to_cart junk fuel x).
Proof.
  intros R_malloc. unfold add_to_cart.
  apply preserves_bind; [done..|by apply preserves_get_shopping_cart|]. intros head.
  apply preserves_bind; [done..| |].
  - apply R_LIST_FOREACH. intros var acc. unfold load_id, load_count, store_count.
    apply preserves_bind; [done..| |].
    { apply preserves_bind; [done..|by apply preserves_load_item|].
      intros ?. by apply preserves_ret. }
    intros i. case_decide; [|by apply preserves_ret].
    apply preserves_bind; [done..| |].
    { apply preserves_bind; [done..|by apply preserves_load_item|].
      intros ?. by apply preserves_ret. }
    intros c. apply preserves_bind; [done..|apply R_store_item|].
    intros ?. by apply preserves_ret.
  - intros [?|?]; [|by apply preserves_ret].
    apply preserves_bind; [done..| |].
    { intros s a s' [= _ <-]. apply R_malloc. }
    intros item. unfold store_id, store_count.
    do 2 (apply preserves_bind; [done..|apply R_store_item|]; intros ?).
    apply preserves_bind; [done..|by apply preserves_get_shopping_cart|]. intros ?.
    apply R_of_links_only, links_only_LIST_INSERT_TAIL.
Qed.

Lemma R_remove_loop fuel head x :
  (∀ s a, R s (set_items (delete a) s)) →
  preserves R
    (LIST_FOREACH fuel head
       (λ item (_ : unit),
          i <~ load_id item;;
          if decide (i = x) then
            count <~ load_count item;;
            LIST_REMOVE item;;
            free item;;
            ret (inr count)
          else ret (inl tt)) tt).
Proof.
  intros R_free. apply R_LIST_FOREACH. intros var acc. unfold load_id, load_count.
  apply preserves_bind; [done..| |].
  { apply preserves_bind; [done..|by apply preserves_load_item|].
    intros ?. by apply preserves_ret. }
  intros i. case_decide; [|by apply preserves_ret].
  apply preserves_bind; [done..| |].
  { apply preserves_bind; [done..|by apply preserves_load_item|].
    intros ?. by apply preserves_ret. }
  intros c.
  apply preserves_bind; [done..|apply R_of_links_only, links_only_LIST_REMOVE|]. intros ?.
  apply preserves_bind; [done..| |intros ?; by apply preserves_ret].
  intros s r s'. unfold free. destruct var as [e|]; [|intros [= _ <-]; reflexivity].
  destruct (items s !! e); [|done]. intros [= _ <-]. apply R_free.
Qed.

End Generic.

(** The loop variable is null when [LIST_FOREACH] runs to its end. *)
Lemma foreach_from_end {A B} (body : ptr → A → M (A + B)) fuel :
  ∀ var acc s v acc' s',
    foreach_from fuel var body acc s = Ret (inl (v, acc')) s' → v = None.
Proof.
  induction fuel as [|fuel IH]; intros [a|] acc s v acc' s'; simpl;
    try (by intros [= <- _ _]).
  intros (r & s1 & Hbody & Hrest)%bind_inv.
  destruct r as [acc1|b]; [|done].
  apply bind_inv in Hrest as (n & s2 & _ & Hrest). by eapply IH.
Qed.

Lemma add_to_cart_keeps_cells junk fuel x :
  preserves keeps_cells (add_to_cart junk fuel x).
Proof.
  apply R_add_to_cart; try apply _.
  - intros s s' Hdata. split; [apply Hdata|].
    intros a Ha. by apply (data_eq_live s s' a Hdata).
  - intros s a it it' Hit. split; [done|]. intros b Hb. simpl.
    destruct (decide (a = b)) as [<-|?]; [by rewrite lookup_insert_eq|].
    by rewrite lookup_insert_ne.
  - intros s it. split; [done|]. intros b Hb. simpl.
    destruct (decide (fresh (dom (items s)) = b)) as [<-|?];
      [by rewrite lookup_insert_eq|].
    by rewrite lookup_insert_ne.
Qed.

Lemma remove_from_cart_makes_no_cells fuel x :
  preserves makes_no_cells (remove_from_cart fuel x).
Proof.
  intros s k s'. unfold remove_from_cart.
  intros (head & s0 & [= <- <-] & Hrun)%bind_inv.
  apply bind_inv in Hrun as (r & s1 & Hloop & Hrest).
  destruct r as [[item []]|count].
  - exfalso. unfold LIST_FOREACH in Hloop.
    apply bind_inv in Hloop as (first & s2 & _ & Hloop).
    apply foreach_from_end in Hloop as ->.
    apply bind_inv in Hrest as (? & s3 & _ & Hrest).
    by apply bind_inv in Hrest as (? & s4 & ? & _).
  - injection Hrest as <- <-.
    eapply (R_remove_loop makes_no_cells); [| |exact Hloop].
    + intros s1' s2' Hdata. split; [apply Hdata|].
      intros a Ha. by apply (data_eq_live s1' s2' a Hdata).
    + intros s1' a. split; [done|]. intros b. simpl.
      destruct (decide (a = b)) as [<-|?]; [rewrite lookup_delete_eq; by intros [? ?]|].
      by rewrite lookup_delete_ne.
Qed.

(** ** Add, then remove *)

Section RoundTrip.

Variable junk : state → item.

Lemma add_then_remove_empty fuel x s :
  is_cart s [] [] → (0 < fuel)%nat →
  (add_to_cart junk fuel x;; remove_from_cart fuel x) s = Ret 1 s.
Proof.
  intros (h & Hcart & (first & Hh & ->%lseg_nil & _) & _) Hfuel.
  destruct fuel as [|fuel]; [lia|].
  assert (Ha : items s !! fresh (dom (items s)) = None)
    by (apply not_elem_of_dom, is_fresh).
  unfold add_to_cart, remove_from_cart, LIST_FOREACH, LIST_INSERT_TAIL,
    LIST_INSERT_HEAD, LIST_REMOVE, print_failed, print, malloc.
  unfold_cmds.
  repeat (first [progress simpl | progress unfold bind, ret | rewrite Hcart
                | exec_step | rewrite decide_True by done]).
  f_equal. apply state_eq; simpl; [reflexivity| | |reflexivity].
  - apply map_eq. intros i. rewrite !lookup_insert.
    repeat case_decide; subst; congruence.
  - apply map_eq. intros i. rewrite lookup_delete, !lookup_insert.
    repeat case_decide; subst; congruence.
Qed.

Lemma add_then_remove_nonempty fuel x s l0 z (c : list (Z * Z)) :
  is_cart s (l0 ++ [z]) c → x ∉ c.*1 → (length (l0 ++ [z]) < fuel)%nat →
  (add_to_cart junk fuel x;; remove_from_cart fuel x) s = Ret 1 s.
Proof.
  intros (h & Hcart & Hlist & Hc) Hx Hfuel.
  set (l := l0 ++ [z]) in *.
  pose proof Hlist as (first & Hh & Hl & Hnd).
  assert (Ha : items s !! fresh (dom (items s)) = None)
    by (apply not_elem_of_dom, is_fresh).
  remember (fresh (dom (items s))) as a eqn:Heqa.
  assert (Hal : a ∉ l).
  { intros [it Hit]%(is_list_live _ _ _ _ Hlist). congruence. }
  pose proof Hl as Hl'. unfold l in Hl'.
  apply lseg_app in Hl' as (mid & _ & (-> & itz & Hitz & Hprevz & Hnz%lseg_nil)%lseg_cons_inv).
  assert (Haz : a ≠ z).
  { intros ->. apply Hal. unfold l. apply elem_of_app. right. left. }
  set (A := set_count 1 (set_id x (junk s))).
  set (s3 := set_items <[a := A]>
               (set_items <[a := set_id x (junk s)]> (set_items <[a := junk s]> s))).
  assert (Hlist3 : is_list s3 h l).
  { do 3 (apply is_list_set_items;
          [intros b Hb; apply links_insert_ne; simpl; congruence|]). done. }
  destruct (LIST_INSERT_TAIL_run fuel s3 h l a) as (s1 & Hrun1 & Hlist1);
    [done|done|by simpl; rewrite lookup_insert_eq|lia|].
  pose proof (links_only_LIST_INSERT_TAIL _ _ _ _ _ _ Hrun1) as (Hcart1 & Hout1 & Hent1).
  assert (Hitz3 : items s3 !! z = Some itz).
  { simpl. by rewrite !lookup_insert_ne. }
  assert (Hs1 : s1 = set_items <[a := set_prev (AddrNext z) (set_next None A)]>
                       (set_items <[z := set_next (Some a) itz]>
                          (set_items <[a := set_next None A]> s3))).
  { rewrite LIST_INSERT_TAIL_cases with (h := h) (l := l) in Hrun1; [|done|lia].
    unfold l in Hrun1. rewrite last_snoc in Hrun1.
    unfold LIST_INSERT_AFTER in Hrun1. revert Hrun1. unfold_cmds.
    repeat (first [progress simpl | exec_step]). by intros [= <-]. }
  assert (Hadd : add_to_cart junk fuel x s = Ret tt s1).
  { unfold add_to_cart, bind at 1, get_shopping_cart. rewrite Hcart.
    unfold bind at 1, LIST_FOREACH, bind at 1, load_first. rewrite Hh.
    erewrite (foreach_from_all _ (λ _ _, tt)); [|done| |lia].
    2:{ intros b acc Hb. by eapply (find_miss_list x (λ item, _) s l c). }
    unfold malloc. unfold_cmds. simpl. rewrite <-Heqa. exec. fold A. fold s3.
    rewrite Hcart. exact Hrun1. }
  rewrite (bind_run _ _ _ _ _ Hadd).
  assert (Hc1 : Forall2 (λ b e, entry_at s1 b = Some e) l c).
  { eapply entries_frame; [|done]. intros b Hb. rewrite Hent1.
    unfold entry_at. simpl. rewrite !lookup_insert_ne; [done|congruence..]. }
  pose proof Hlist1 as (first1 & Hh1 & Hl1 & _).
  unfold remove_from_cart, bind at 1, get_shopping_cart. rewrite Hcart1. simpl.
  rewrite Hcart.
  unfold bind at 1, LIST_FOREACH, bind at 1, load_first. rewrite Hh1.
  erewrite (foreach_from_stop _ (λ _ _, tt) s1 l a []); [reflexivity|done| | |lia].
  - intros b acc Hb. by eapply (find_miss_list x (λ item, _) s1 l c).
  - rewrite Hs1. unfold LIST_REMOVE. unfold_cmds.
    repeat (first [progress simpl | exec_step | rewrite decide_True by done]).
    f_equal. apply state_eq; simpl; [reflexivity|reflexivity| |reflexivity].
    apply map_eq. intros i. rewrite lookup_delete, !lookup_insert.
    repeat case_decide; subst; try congruence.
    rewrite Hitz. f_equal. destruct itz. simpl in *. by subst.
Qed.

End RoundTrip.

Lemma model_calls_NoDup ks :
  ∀ (c c' : list (Z * Z)), NoDup (c.*1) → model_calls c ks = Some c' → NoDup (c'.*1).
Proof.
  induction ks as [|k ks IH]; intros c c' Hnd; simpl.
  - by intros [= <-].
  - destruct k as [x|x]; simpl.
    + apply IH. by apply add_entry_NoDup.
    + destruct (remove_entry x c) as [[r c1]|] eqn:Hrem; simpl; [|done].
      apply IH. by eapply remove_entry_ids.
Qed.

(** The links of a list's cells address cells of the list only. *)
Lemma lseg_closed m l :
  ∀ back p,
    lseg m back p l None →
    (p = None ∨ ∃ y, y ∈ l ∧ p = Some y) ∧
    ∀ b, b ∈ l →
      ∃ it, m !! b = Some it ∧
            (le_next it = None ∨ ∃ y, y ∈ l ∧ le_next it = Some y) ∧
            (le_prev it = back ∨ ∃ y, y ∈ l ∧ le_prev it = AddrNext y).
Proof.
  induction l as [|a l IH]; intros back p Hl.
  - apply lseg_nil in Hl as ->. split; [by left|]. by intros b ?%elem_of_nil.
  - apply lseg_cons_inv in Hl as (-> & it & Hit & Hprev & Hl).
    destruct (IH _ _ Hl) as (Hnext & Hrest).
    split; [right; exists a; split; [left|done]|].
    intros b [->|Hb]%elem_of_cons.
    + exists it. split; [done|]. split; [|by left].
      destruct Hnext as [?|(y & Hy & ?)]; [by left|].
      right. exists y. split; [by right|done].
    + destruct (Hrest b Hb) as (itb & Hitb & Hn & Hp).
      exists itb. split; [done|]. split.
      * destruct Hn as [?|(y & Hy & ?)]; [by left|].
        right. exists y. split; [by right|done].
      * right. destruct Hp as [?|(y & Hy & ?)].
        -- exists a. split; [left|done].
        -- exists y. split; [by right|done].
Qed.

(** * Further properties of the list and of the cart *)


(** X1: the four list macros write link fields only: whenever one of them
    returns, from any state and with any arguments, every address holds a
    live cell exactly when it did before, with the same id and count, and
    the static [shopping_cart] and the output are as before. *)
Theorem list_macros_touch_links_only :
  (∀ head elm s s', LIST_INSERT_HEAD head elm s = Ret tt s' → data_eq s s') ∧
  (∀ listelm elm s s', LIST_INSERT_AFTER listelm elm s = Ret tt s' → data_eq s s') ∧
  (∀ fuel head elm s s', LIST_INSERT_TAIL fuel head elm s = Ret tt s' → data_eq s s') ∧
  (∀ elm s s', LIST_REMOVE elm s = Ret tt s' → data_eq s s').
Proof.
  split; [|split; [|split]].
  - intros head elm s s'. apply links_only_LIST_INSERT_HEAD.
  - intros listelm elm s s'. apply links_only_LIST_INSERT_AFTER.
  - intros fuel head elm s s'. apply links_only_LIST_INSERT_TAIL.
  - intros elm s s'. apply links_only_LIST_REMOVE.
Qed.

Lemma three_cells_is_list : is_list three_cells 1 [].
Proof. exists None. split; [done|]. split; [done|constructor]. Qed.

Lemma small_cart_is_list : is_list small_cart 1 [1%positive].
Proof.
  destruct small_cart_is_cart as (h & Hh & Hlist & _).
  by injection Hh as <-.
Qed.

Lemma list_macros_touch_links_only_witness :
  ∃ s1 s2 s3 s4,
    data_eq three_cells s1 ∧ data_eq s1 s2 ∧ data_eq s2 s3 ∧ data_eq s3 s4 ∧
    is_list s4 1 [5; 2]%positive.
Proof.
  destruct list_macros_touch_links_only as (Hhead & Hafter & Htail & Hremove).
  destruct (LIST_INSERT_HEAD_run three_cells 1%positive [] 5%positive three_cells_is_list)
    as (s1 & Hrun1 & Hlist1); [apply not_elem_of_nil|by eexists|].
  pose proof (Hhead _ _ _ _ Hrun1) as Hdata1.
  destruct (LIST_INSERT_AFTER_run s1 1%positive [] 5%positive [] 9%positive Hlist1)
    as (s2 & Hrun2 & Hlist2).
  { by intros [= ]%list_elem_of_singleton. }
  { eapply live_data_eq; [done|by eexists]. }
  pose proof (Hafter _ _ _ _ Hrun2) as Hdata2.
  destruct (LIST_INSERT_TAIL_run 2%nat s2 1%positive [5; 9]%positive 2%positive Hlist2)
    as (s3 & Hrun3 & Hlist3).
  { intros [[= ]|[= ]%list_elem_of_singleton]%elem_of_cons. }
  { eapply live_data_eq; [done|]. eapply live_data_eq; [done|by eexists]. }
  { simpl. lia. }
  pose proof (Htail _ _ _ _ _ Hrun3) as Hdata3.
  destruct (LIST_REMOVE_run s3 1%positive [5%positive] 9%positive [2%positive] Hlist3)
    as (s4 & Hrun4 & Hlist4).
  pose proof (Hremove _ _ _ Hrun4) as Hdata4.
  by exists s1, s2, s3, s4.
Defined.

(** X2: [LIST_REMOVE] of a member does not write the member's own cell, so
    its links still address its former neighbours, and a second
    [LIST_REMOVE] of it right away changes nothing at all. *)
Theorem LIST_REMOVE_twice_is_once s h l1 a l2 :
  is_list s h (l1 ++ a :: l2) →
  ∃ s', LIST_REMOVE (Some a) s = Ret tt s' ∧
        items s' !! a = items s !! a ∧
        LIST_REMOVE (Some a) s' = Ret tt s'.
Proof.
  intros (first & Hh & Hl & Hnd).
  apply lseg_app in Hl as (mid & Hl1 & Hl2).
  apply lseg_cons_inv in Hl2 as (-> & ita & Hita & Hprev & Hl2).
  apply NoDup_app in Hnd as (Hnd1 & Hdisj & [Ha Hnd2]%NoDup_cons).
  assert (Ha1 : a ∉ l1) by (intros ?; eapply Hdisj; [done|left]).
  unfold LIST_REMOVE. unfold_cmds.
  destruct l1 as [|z l1 _] using rev_ind; destruct l2 as [|y l2].
  - apply lseg_nil in Hl1, Hl2. unfold last_back in Hprev. simpl in Hprev.
    exec. eexists; split; [reflexivity|]. split; [done|].
    exec. f_equal. apply state_eq; simpl; try done. map_eq_inserts.
  - apply lseg_nil in Hl1.
    apply lseg_cons_inv in Hl2 as (Hn & ity & Hity & Hprevy & Hl2).
    apply not_elem_of_cons in Ha as [Hay Ha].
    unfold last_back in Hprev. simpl in Hprev.
    exec. eexists; split; [reflexivity|]. split; [by exec|].
    exec. f_equal. apply state_eq; simpl; try done; map_eq_inserts.
  - apply lseg_nil in Hl2. rewrite last_back_snoc in Hprev.
    apply lseg_app in Hl1 as (mid & Hl1 & (-> & itz & Hitz & Hprevz & Hnz)%lseg_cons_inv).
    apply not_elem_of_app in Ha1 as [Ha1 [Haz _]%not_elem_of_cons].
    exec. eexists; split; [reflexivity|]. split; [by exec|].
    exec. f_equal. apply state_eq; simpl; try done; map_eq_inserts.
  - rewrite last_back_snoc in Hprev.
    apply lseg_app in Hl1 as (mid & Hl1 & (-> & itz & Hitz & Hprevz & Hnz)%lseg_cons_inv).
    apply lseg_cons_inv in Hl2 as (Hn & ity & Hity & Hprevy & Hl2).
    apply not_elem_of_app in Ha1 as [Ha1 [Haz _]%not_elem_of_cons].
    apply not_elem_of_cons in Ha as [Hay Ha].
    assert (Hzy : z ≠ y).
    { intros ->. eapply Hdisj; [apply elem_of_app; right; left|right; left]. }
    exec. eexists; split; [reflexivity|]. split; [by exec|].
    exec. f_equal. apply state_eq; simpl; try done; map_eq_inserts.
Qed.

Lemma LIST_REMOVE_twice_is_once_witness :
  ∃ s', LIST_REMOVE (Some 1%positive) small_cart = Ret tt s' ∧
        items s' !! 1%positive = items small_cart !! 1%positive ∧
        LIST_REMOVE (Some 1%positive) s' = Ret tt s'.
Proof.
  apply (LIST_REMOVE_twice_is_once small_cart 1%positive [] 1%positive []).
  apply small_cart_is_list.
Defined.

(** X3: inserting a live element that is not on the list, at the head,
    behind a member or at the tail, and removing it again leaves the list
    with the elements it had, in the same order, and no id or count
    changed. *)
Theorem insert_then_remove_restores_list :
  (∀ s h l e,
     is_list s h l → e ∉ l → is_Some (items s !! e) →
     ∃ s', (LIST_INSERT_HEAD (Some h) (Some e);; LIST_REMOVE (Some e)) s = Ret tt s' ∧
           is_list s' h l ∧ data_eq s s') ∧
  (∀ s h l1 x l2 e,
     is_list s h (l1 ++ x :: l2) → e ∉ l1 ++ x :: l2 → is_Some (items s !! e) →
     ∃ s', (LIST_INSERT_AFTER (Some x) (Some e);; LIST_REMOVE (Some e)) s = Ret tt s' ∧
           is_list s' h (l1 ++ x :: l2) ∧ data_eq s s') ∧
  (∀ fuel s h l e,
     is_list s h l → e ∉ l → is_Some (items s !! e) → (length l ≤ fuel)%nat →
     ∃ s', (LIST_INSERT_TAIL fuel (Some h) (Some e);; LIST_REMOVE (Some e)) s = Ret tt s' ∧
           is_list s' h l ∧ data_eq s s').
Proof.
  split; [|split].
  - apply insert_head_remove.
  - apply insert_after_remove.
  - apply insert_tail_remove.
Qed.

Lemma insert_then_remove_restores_list_witness :
  ∃ s1 s2 s3 s4,
    (LIST_INSERT_HEAD (Some 1%positive) (Some 5%positive);;
     LIST_REMOVE (Some 5%positive)) three_cells = Ret tt s1 ∧
    (LIST_INSERT_TAIL 0 (Some 1%positive) (Some 5%positive);;
     LIST_REMOVE (Some 5%positive)) s1 = Ret tt s2 ∧
    LIST_INSERT_HEAD (Some 1%positive) (Some 5%positive) s2 = Ret tt s3 ∧
    (LIST_INSERT_AFTER (Some 5%positive) (Some 9%positive);;
     LIST_REMOVE (Some 9%positive)) s3 = Ret tt s4 ∧
    is_list s4 1 [5%positive].
Proof.
  destruct insert_then_remove_restores_list as (Hhead & Hafter & Htail).
  destruct (Hhead three_cells 1%positive [] 5%positive three_cells_is_list)
    as (s1 & Hrun1 & Hlist1 & Hdata1); [apply not_elem_of_nil|by eexists|].
  destruct (Htail 0%nat s1 1%positive [] 5%positive Hlist1)
    as (s2 & Hrun2 & Hlist2 & Hdata2).
  { apply not_elem_of_nil. }
  { eapply live_data_eq; [done|by eexists]. }
  { simpl. lia. }
  destruct (LIST_INSERT_HEAD_run s2 1%positive [] 5%positive Hlist2)
    as (s3 & Hrun3 & Hlist3).
  { apply not_elem_of_nil. }
  { eapply live_data_eq; [done|]. eapply live_data_eq; [done|by eexists]. }
  pose proof (links_only_LIST_INSERT_HEAD _ _ _ _ _ Hrun3) as Hdata3.
  destruct (Hafter s3 1%positive [] 5%positive [] 9%positive Hlist3)
    as (s4 & Hrun4 & Hlist4 & Hdata4).
  { by intros [= ]%list_elem_of_singleton. }
  { do 3 (eapply live_data_eq; [done|]). by eexists. }
  by exists s1, s2, s3, s4.
Defined.

(** X4: on a well-formed list and with fuel for its length,
    [LIST_INSERT_TAIL] does exactly what [LIST_INSERT_HEAD] does when the
    list is empty and what [LIST_INSERT_AFTER] its last element does
    otherwise, whatever the element pointer is. *)
Theorem LIST_INSERT_TAIL_is_head_or_after fuel s h l elm :
  is_list s h l → (length l ≤ fuel)%nat →
  LIST_INSERT_TAIL fuel (Some h) elm s =
  match last l with
  | None => LIST_INSERT_HEAD (Some h) elm s
  | Some z => LIST_INSERT_AFTER (Some z) elm s
  end.
Proof. apply LIST_INSERT_TAIL_cases. Qed.

Lemma LIST_INSERT_TAIL_is_head_or_after_witness :
  LIST_INSERT_TAIL 1 (Some 1%positive) None small_cart =
    LIST_INSERT_AFTER (Some 1%positive) None small_cart ∧
  LIST_INSERT_TAIL 0 (Some 1%positive) (Some 9%positive) three_cells =
    LIST_INSERT_HEAD (Some 1%positive) (Some 9%positive) three_cells.
Proof.
  split.
  - apply (LIST_INSERT_TAIL_is_head_or_after 1 small_cart 1%positive [1%positive] None).
    + apply small_cart_is_list.
    + simpl. lia.
  - apply (LIST_INSERT_TAIL_is_head_or_after 0 three_cells 1%positive [] (Some 9%positive)).
    + apply three_cells_is_list.
    + simpl. lia.
Defined.

(** X5: [LIST_INSERT_HEAD] of the element that is already first makes the
    element its own successor (the rest of the list is cut off), and from
    then on [LIST_FOREACH] over the list never ends: it is still running
    when any amount of fuel is used up. *)
Theorem LIST_INSERT_HEAD_twice_loops s h e l :
  is_list s h (e :: l) →
  ∃ s', LIST_INSERT_HEAD (Some h) (Some e) s = Ret tt s' ∧
        heads s' !! h = Some (Some e) ∧
        links (items s') e = Some (Some e, AddrFirst h) ∧
        ∀ fuel, list_elements fuel (Some h) s' = Timeout.
Proof.
  intros (first & Hh & Hl & _).
  apply lseg_cons_inv in Hl as (-> & ite & Hite & Hprev & Hl).
  unfold LIST_INSERT_HEAD. unfold_cmds. exec.
  eexists. split; [reflexivity|]. split; [by exec|]. split.
  { simpl. by rewrite links_insert_eq. }
  intros fuel. unfold list_elements, LIST_FOREACH, bind at 1, bind at 1, load_first.
  simpl. rewrite lookup_insert_eq.
  erewrite (foreach_self_loop _ (λ acc, acc ++ [e])); [done| | |].
  - simpl. by rewrite lookup_insert_eq.
  - done.
  - done.
Qed.

Lemma LIST_INSERT_HEAD_twice_loops_witness :
  ∃ s', LIST_INSERT_HEAD (Some 1%positive) (Some 1%positive) small_cart = Ret tt s' ∧
        heads s' !! 1%positive = Some (Some 1%positive) ∧
        links (items s') 1 = Some (Some 1%positive, AddrFirst 1) ∧
        ∀ fuel, list_elements fuel (Some 1%positive) s' = Timeout.
Proof.
  apply (LIST_INSERT_HEAD_twice_loops small_cart 1%positive 1%positive []).
  apply small_cart_is_list.
Defined.

(** X6: from any state, well formed or not, when [add_to_cart] returns it
    has printed nothing and freed nothing (every cell live before is live
    after), and when [remove_from_cart] returns it has printed nothing and
    allocated nothing (every cell live after was live before). *)
Theorem add_never_frees_remove_never_allocates :
  (∀ junk fuel x s s',
     add_to_cart junk fuel x s = Ret tt s' →
     stdout s' = stdout s ∧
     ∀ a, is_Some (items s !! a) → is_Some (items s' !! a)) ∧
  (∀ fuel x s k s',
     remove_from_cart fuel x s = Ret k s' →
     stdout s' = stdout s ∧
     ∀ a, is_Some (items s' !! a) → is_Some (items s !! a)).
Proof.
  split.
  - intros junk fuel x s s'. apply add_to_cart_keeps_cells.
  - intros fuel x s k s'. apply remove_from_cart_makes_no_cells.
Qed.

Lemma add_never_frees_remove_never_allocates_witness :
  ∃ s1 s2,
    add_to_cart garbage 1 7 small_cart = Ret tt s1 ∧
    is_Some (items s1 !! 1%positive) ∧
    remove_from_cart 1 7 small_cart = Ret 2 s2 ∧
    stdout s2 = [] ∧ stdout s1 = [].
Proof.
  destruct add_never_frees_remove_never_allocates as (Hadd & Hremove).
  destruct (add_to_cart_found_cart garbage 1 7 2 small_cart [1%positive] [] [])
    as (s1 & Hrun1 & _); [apply small_cart_is_cart|apply not_elem_of_nil|simpl; lia|].
  destruct (remove_from_cart_found_cart 1 7 2 small_cart [] 1%positive [] [] [])
    as (s2 & Hrun2 & _);
    [apply small_cart_is_cart|done|apply not_elem_of_nil|simpl; lia|].
  destruct (Hadd _ _ _ _ _ Hrun1) as [Hout1 Hlive1].
  destruct (Hremove _ _ _ _ _ Hrun2) as [Hout2 _].
  exists s1, s2. split; [done|]. split; [apply Hlive1; by eexists|].
  split; [done|]. split; [exact Hout2|exact Hout1].
Defined.

(** X7: on a cart that holds no item with id [x], [add_to_cart(x)] followed
    by [remove_from_cart(x)] returns 1 and leaves the whole state as it
    was: the same head, the same cells with the same contents, the new cell
    freed again, nothing printed. *)
Theorem add_then_remove_restores_state junk fuel x s l (c : list (Z * Z)) :
  is_cart s l c → x ∉ c.*1 → (length l < fuel)%nat →
  (add_to_cart junk fuel x;; remove_from_cart fuel x) s = Ret 1 s.
Proof.
  intros Hcart Hx Hfuel. destruct l as [|z l0 _] using rev_ind.
  - pose proof (is_cart_length _ _ _ Hcart) as Hlen. destruct c; [|done].
    by apply add_then_remove_empty.
  - by eapply add_then_remove_nonempty.
Qed.

Lemma add_then_remove_restores_state_witness :
  (add_to_cart garbage 2 3;; remove_from_cart 2 3) small_cart = Ret 1 small_cart.
Proof.
  apply (add_then_remove_restores_state garbage 2 3 small_cart [1%positive] [(7, 2)]).
  - apply small_cart_is_cart.
  - by intros [= ]%list_elem_of_singleton.
  - simpl. lia.
Defined.








(** X9: distinct ids stay distinct.  If the items of a cart have pairwise
    different ids, then after any sequence of [add_to_cart] and
    [remove_from_cart] calls that returns, the cart is again a well-formed
    list whose items have pairwise different ids. *)
Theorem cart_calls_keep_ids_distinct junk fuel ks s l (c : list (Z * Z)) s' :
  is_cart s l c → NoDup (c.*1) → (length l + length ks ≤ fuel)%nat →
  run_calls junk fuel ks s = Ret tt s' →
  ∃ l' c', is_cart s' l' c' ∧ NoDup (c'.*1).
Proof.
  intros Hcart Hnd Hfuel Hrun.
  pose proof (run_calls_refines junk fuel ks s l c Hcart Hfuel) as Href.
  destruct (model_calls c ks) as [c'|] eqn:Hmodel.
  - destruct Href as (s1 & l' & Hrun1 & Hcart').
    assert (s1 = s') as -> by congruence.
    exists l', c'. split; [done|]. by eapply model_calls_NoDup.
  - destruct Href as (s1 & Hrun1). congruence.
Qed.

Lemma cart_calls_keep_ids_distinct_witness :
  ∃ s' l' c',
    run_calls garbage 4 [Add 7; Add 3; Remove 7] small_cart = Ret tt s' ∧
    is_cart s' l' c' ∧ NoDup (c'.*1).
Proof.
  destruct (run_calls garbage 4 [Add 7; Add 3; Remove 7] small_cart)
    as [[] s'| |] eqn:Hrun; [|vm_compute in Hrun; discriminate..].
  destruct (cart_calls_keep_ids_distinct garbage 4 [Add 7; Add 3; Remove 7] small_cart
              [1%positive] [(7, 2)] s') as (l'' & c' & Hcart' & Hnd').
  - apply small_cart_is_cart.
  - apply NoDup_singleton.
  - simpl. lia.
  - exact Hrun.
  - by exists s', l'', c'.
Defined.

(** X10: in a cart whose items have pairwise different ids, once
    [remove_from_cart(x)] has returned no item with id [x] is left, so
    another [remove_from_cart(x)] prints the "failed to find" line and
    faults on the null pointer. *)
Theorem remove_twice_faults fuel x s l (c : list (Z * Z)) k s' :
  is_cart s l c → NoDup (c.*1) → (length l ≤ fuel)%nat →
  remove_from_cart fuel x s = Ret k s' →
  ∃ l' c', is_cart s' l' c' ∧ (x ∉ c'.*1) ∧
           remove_from_cart fuel x s' =
           Fault NullDeref (set_stdout (λ o, o ++ [failed_msg x]) s').
Proof.
  intros Hcart Hnd Hfuel Hrun.
  pose proof (remove_from_cart_refines fuel x s l c Hcart Hfuel) as Href.
  destruct (remove_entry x c) as [[k1 c1]|] eqn:Hmodel; [|congruence].
  destruct Href as (s1 & l1 & Hrun1 & _ & Hcart1).
  assert (s1 = s') as -> by congruence.
  destruct (remove_entry_ids _ _ _ _ Hnd Hmodel) as (_ & Hx & _).
  exists l1, c1. split; [done|]. split; [done|].
  eapply remove_from_cart_missing; [done|done|].
  apply is_cart_length in Hcart, Hcart1.
  pose proof (remove_entry_length _ _ _ _ Hmodel). lia.
Qed.

Lemma remove_twice_faults_witness :
  ∃ s' l' c',
    remove_from_cart 1 7 small_cart = Ret 2 s' ∧
    is_cart s' l' c' ∧
    remove_from_cart 1 7 s' =
    Fault NullDeref (set_stdout (λ o, o ++ [failed_msg 7]) s').
Proof.
  destruct (remove_from_cart_found_cart 1 7 2 small_cart [] 1%positive [] [] [])
    as (s' & Hrun & _);
    [apply small_cart_is_cart|done|apply not_elem_of_nil|simpl; lia|].
  destruct (remove_twice_faults 1 7 small_cart [1%positive] [(7, 2)] 2 s')
    as (l' & c' & Hcart' & _ & Hfault).
  - apply small_cart_is_cart.
  - apply NoDup_singleton.
  - simpl. lia.
  - exact Hrun.
  - by exists s', l', c'.
Defined.

(** X11: a cart whose head is live counts.  Take a cart whose
    [shopping_cart] points to a live head with [lh_first] null, so that the
    list is empty.  After [add_to_cart] has been called for each id of a
    sequence, in order, the cart holds the ids in the order in which they
    first occur, each once, and the count of every id is the number of
    times it occurs in the sequence (for sequences of at most [INT_MAX]
    ids). *)
Theorem add_all_counts_occurrences junk fuel ids s :
  is_cart s [] [] → (length ids ≤ fuel)%nat → Z.of_nat (length ids) ≤ INT_MAX →
  ∃ s' l' c',
    add_all junk fuel ids s = Ret tt s' ∧
    is_cart s' l' c' ∧
    c'.*1 = first_added [] ids ∧
    ∀ x, cart_count x c' = occurrences x ids.
Proof.
  intros Hcart Hfuel Hlen.
  destruct (add_all_tally junk fuel ids s [] [] Hcart)
    as (s' & l' & c' & Hrun & Hcart' & Hids & Hcount); [simpl; lia|].
  exists s', l', c'. split; [done|]. split; [done|]. split; [done|].
  intros x. rewrite Hcount; simpl; [lia|lia|].
  pose proof (occurrences_le_length x ids). lia.
Qed.

Lemma add_all_counts_occurrences_witness :
  ∃ s' l' c',
    add_all garbage 5 [3; 1; 3; 2; 3] empty_cart = Ret tt s' ∧
    is_cart s' l' c' ∧
    c'.*1 = [3; 1; 2] ∧
    cart_count 3 c' = 3 ∧ cart_count 1 c' = 1 ∧ cart_count 9 c' = 0.
Proof.
  destruct (add_all_counts_occurrences garbage 5 [3; 1; 3; 2; 3] empty_cart)
    as (s' & l' & c' & Hrun & Hcart' & Hids & Hcount).
  - apply empty_cart_is_cart.
  - simpl. lia.
  - unfold INT_MAX. simpl. lia.
  - exists s', l', c'. split; [done|]. split; [done|]. split; [done|].
    split; [apply (Hcount 3)|]. split; [apply (Hcount 1)|apply (Hcount 9)].
Defined.

(** X12: the two catalog functions know the same ids: [get_cost] is
    positive exactly for the ids 1 and 2, and exactly for these [get_name]
    is not "bad id". *)
Theorem catalog_tables_agree x :
  (0 < get_cost x ↔ x = 1 ∨ x = 2) ∧
  (get_name x ≠ "bad id" ↔ x = 1 ∨ x = 2).
Proof.
  unfold get_cost, get_name. repeat case_decide; subst; split; split;
    try done; try lia; try (intros [?|?]; lia); try (intros _; lia).
Qed.

Lemma catalog_tables_agree_witness :
  0 < get_cost 2 ∧ get_name 2 ≠ "bad id" ∧ ¬ (0 < get_cost 5).
Proof.
  split; [|split].
  - apply (catalog_tables_agree 2). lia.
  - apply (catalog_tables_agree 2). lia.
  - intros Hpos. apply (catalog_tables_agree 5) in Hpos. lia.
Defined.

(** X13: when [remove_from_cart(x)] has returned, the cell it freed is
    referenced by nothing that is left of the list: not by the head and
    not by the [le_next] or [le_prev] of any remaining cell. *)
Theorem remove_leaves_no_dangling_link fuel x k s h l1 a l2 (c1 c2 : list (Z * Z)) :
  shopping_cart s = Some h →
  is_cart s (l1 ++ a :: l2) (c1 ++ (x, k) :: c2) →
  length l1 = length c1 → x ∉ c1.*1 → (length c1 < fuel)%nat →
  ∃ s', remove_from_cart fuel x s = Ret k s' ∧
        items s' !! a = None ∧
        heads s' !! h ≠ Some (Some a) ∧
        ∀ b it, items s' !! b = Some it →
                b ∈ l1 ++ l2 → le_next it ≠ Some a ∧ le_prev it ≠ AddrNext a.
Proof.
  intros Hhead Hcart Hlen Hx Hfuel.
  destruct (remove_from_cart_found_cart fuel x k s l1 a l2 c1 c2)
    as (s' & Hrun & _ & Ha & Hcart'); [done..|].
  exists s'. split; [done|]. split; [done|].
  pose proof Hcart as (h0 & Hh0 & (_ & _ & _ & Hnd) & _).
  apply NoDup_app in Hnd as (_ & Hdisj & [Ha2 _]%NoDup_cons).
  assert (Ha12 : a ∉ l1 ++ l2).
  { apply not_elem_of_app. split; [|done]. intros ?. eapply Hdisj; [done|left]. }
  destruct Hcart' as (h' & Hh' & (first & Hfirst & Hl & _) & _).
  assert (h' = h) as ->.
  { pose proof (cart_fixed_remove_from_cart _ _ _ _ _ Hrun) as Hfix.
    unfold cart_fixed in Hfix. congruence. }
  destruct (lseg_closed _ _ _ _ Hl) as (Hp & Hcells).
  split.
  - rewrite Hfirst. intros [= ->].
    destruct Hp as [?|(y & Hy & [= <-])]; done.
  - intros b it Hit Hb. destruct (Hcells b Hb) as (it' & Hit' & Hn & Hpv).
    assert (it' = it) as -> by congruence. split.
    + intros Heq. destruct Hn as [?|(y & Hy & ?)]; [congruence|].
      assert (y = a) as -> by congruence. done.
    + intros Heq. destruct Hpv as [?|(y & Hy & ?)]; [congruence|].
      assert (y = a) as -> by congruence. done.
Qed.

Lemma remove_leaves_no_dangling_link_witness :
  ∃ s', remove_from_cart 1 7 small_cart = Ret 2 s' ∧
        items s' !! 1%positive = None ∧
        heads s' !! 1%positive ≠ Some (Some 1%positive).
Proof.
  destruct (remove_leaves_no_dangling_link 1 7 2 small_cart 1%positive
              [] 1%positive [] [] []) as (s' & Hrun & Ha & Hhead & _).
  - reflexivity.
  - apply small_cart_is_cart.
  - reflexivity.
  - apply not_elem_of_nil.
  - simpl. lia.
  - by exists s'.
Defined.
